(** * await.py: counting [await] and [async] NAME tokens under a directory

    A shallow embedding of [src/await.py] and the properties of its
    specification.  The script walks a directory with [os.walk], opens every
    file whose name ends in [.py], tokenizes it with [tokenize.tokenize] and
    reports each NAME token spelled [await] or [async]; files whose
    tokenization raises [SyntaxError] or [UnicodeDecodeError] are reported as
    errors.  Three counters are printed at the end.

    What the script reads from outside is an environment record [Env]: the
    directory listings and links behind [os.walk], [open], and
    [tokenize.tokenize].  [os.walk] is written out over it, as CPython's
    [Lib/os.py] has it for the arguments the script leaves at their
    defaults.  The script itself (lines 13-49; [dir] is the absolute path
    of line 12) is written in a state-and-exception monad over what a run
    lets one observe: the text of each [print], the names passed to
    [open], and the three counters.  An exception that nothing catches
    ends the run, as the traceback of the interpreter does.

    For the positions of the tokens, [tokenize.tokenize] itself is
    written out as well (module [Tokenize], after [Lib/tokenize.py] of
    CPython 3.8), over a record of its regular expressions and codecs.
    The sample environments give, for their files, the tokens that this
    tokenizer gives. *)

From Stdlib Require Import List String Ascii Arith ZArith Bool Lia Permutation.
From Stdlib Require Import DecimalString DecimalNat.
Import ListNotations.

Local Open Scope string_scope.
Local Open Scope list_scope.

(* ================================================================== *)
(** ** Python values used by the script *)

Module Py.

(** [str.endswith]: some tail of [s] is [suffix]. *)
Fixpoint endswith (s suffix : string) : bool :=
  if String.eqb s suffix then true
  else match s with
       | EmptyString => false
       | String _ s' => endswith s' suffix
       end.

(** [str.startswith]. *)
Definition startswith (s pre : string) : bool := String.prefix pre s.

Definition sep : string := "/".

(** [posixpath.join] at two arguments. *)
Definition join (a b : string) : string :=
  if startswith b sep then b
  else if String.eqb a EmptyString || endswith a sep then a ++ b
  else a ++ sep ++ b.

(** [str] of a non-negative [int]. *)
Definition str_int (n : nat) : string :=
  NilEmpty.string_of_uint (Nat.to_uint n).

(** [str] of a pair of [int]s, as [format] renders [tok.start]. *)
Definition str_pair (p : nat * nat) : string :=
  "(" ++ str_int (fst p) ++ ", " ++ str_int (snd p) ++ ")".

(** The text one call of [print] writes before its newline: the arguments'
    [str] joined by single spaces. *)
Definition print_text (args : list string) : string := String.concat " " args.

Definition TAB : string := String (ascii_of_nat 9) EmptyString.

(** ['{}\t{}: {}'.format(a, b, c)]. *)
Definition format3 (a b c : string) : string := a ++ TAB ++ b ++ ": " ++ c.

(** Exception classes that matter to the script.  [IndentationError] derives
    from [SyntaxError]; [TokenError] ([tokenize.TokenError]) and [OSError]
    derive from [Exception] only. *)
Inductive exn_class : Set :=
| SyntaxError | IndentationError | UnicodeDecodeError | TokenError | OSError.

Definition exn_class_eqb (a b : exn_class) : bool :=
  match a, b with
  | SyntaxError, SyntaxError | IndentationError, IndentationError
  | UnicodeDecodeError, UnicodeDecodeError | TokenError, TokenError
  | OSError, OSError => true
  | _, _ => false
  end.

Definition base_class (c : exn_class) : option exn_class :=
  match c with
  | IndentationError => Some SyntaxError
  | _ => None
  end.

Definition issubclass (c d : exn_class) : bool :=
  exn_class_eqb c d ||
  match base_class c with
  | Some b => exn_class_eqb b d
  | None => false
  end.

(** An exception object: its class and its [str]. *)
Record exn : Set := mkExn { exn_cls : exn_class; exn_str : string }.

Definition isinstance (e : exn) (c : exn_class) : bool :=
  issubclass (exn_cls e) c.

(** Either a value or a raised exception. *)
Inductive outcome (A : Type) : Type :=
| Returns (a : A)
| Raises (e : exn).
Arguments Returns {A} a.
Arguments Raises {A} e.

End Py.
Import Py.

(* ================================================================== *)
(** ** Tokens *)

(** [token.NAME]. *)
Definition NAME : nat := 1.

(** [tokenize.TokenInfo]: [type], [string], [start], [end], [line]. *)
Record TokenInfo : Set := mkTok {
  tok_type : nat;
  tok_string : string;
  tok_start : nat * nat;
  tok_end : nat * nat;
  tok_line : string
}.

(** What iterating a generator of tokens to its end gives: the tokens it
    yields, in order, and the exception that ends it, if one does. *)
Record TokenStream : Set := mkStream {
  yielded : list TokenInfo;
  raised : option exn
}.

(** [list(g)]: all the tokens, or the generator's exception; the tokens
    yielded before an exception are dropped with the unfinished list. *)
Definition py_list (g : TokenStream) : outcome (list TokenInfo) :=
  match raised g with
  | None => Returns (yielded g)
  | Some e => Raises e
  end.

(* ================================================================== *)
(** ** The environment *)

(** One entry of [os.scandir]: its name and the answer of [entry.is_dir()]
    (which follows symbolic links and is [False] when it fails). *)
Record DirEntry : Set := mkEntry { entry_name : string; entry_is_dir : bool }.

(** What the script reads from outside.  [scandir top] is [None] when
    [os.scandir(top)] raises [OSError]; [open_rb] is [open(filename, 'rb')]
    and gives the file's bytes; [tokenize] is [tokenize.tokenize(f.readline)]
    over these bytes.  The environment does not change while the script
    runs. *)
Record Env : Type := mkEnv {
  scandir : string -> option (list DirEntry);
  islink : string -> bool;
  open_rb : string -> outcome (list Byte.byte);
  tokenize : list Byte.byte -> TokenStream
}.

(* ================================================================== *)
(** ** [os.walk] *)

Module Os.

(** What [os.walk] yields: [(root, dirs, files)]. *)
Definition triple : Set := (string * list string * list string)%type.

Definition names_where (p : DirEntry -> bool) (es : list DirEntry) : list string :=
  map entry_name (filter p es).

(** [yield from] over a list: the yields of [f x] for each [x] in turn;
    [None] as soon as one of them is. *)
Fixpoint yield_from_each {A B : Type} (f : A -> option (list B)) (xs : list A)
    : option (list B) :=
  match xs with
  | [] => Some []
  | x :: xs' =>
      match f x with
      | None => None
      | Some here =>
          match yield_from_each f xs' with
          | None => None
          | Some rest => Some (here ++ rest)
          end
      end
  end.

Section Walk.
Variable E : Env.
Variable followlinks : bool.

(** [os.walk(top, topdown=True, onerror=None, followlinks)]: all that it
    yields, in order.  As in [Lib/os.py]: when [scandir(top)] raises
    [OSError] the walk of [top] returns without a yield ([onerror] is
    [None], so the error is dropped); otherwise the entries are split by
    [entry.is_dir()] into [dirs] and [nondirs], [(top, dirs, nondirs)] is
    yielded, and each name of [dirs] is walked in turn unless
    [islink(join(top, name))] holds and [followlinks] is false.  [fuel]
    bounds the depth of the recursion; [None] means it was not enough. *)
Fixpoint walk (fuel : nat) (top : string) : option (list triple) :=
  match fuel with
  | O => None
  | S fuel' =>
      match scandir E top with
      | None => Some []
      | Some entries =>
          let dirs := names_where entry_is_dir entries in
          let nondirs := names_where (fun e => negb (entry_is_dir e)) entries in
          match yield_from_each
                  (fun dirname =>
                     let new_path := join top dirname in
                     if followlinks || negb (islink E new_path)
                     then walk fuel' new_path
                     else Some [])
                  dirs with
          | None => None
          | Some below => Some ((top, dirs, nondirs) :: below)
          end
      end
  end.
End Walk.

End Os.

(* ================================================================== *)
(** ** The script's monad *)

(** What an observer of a run sees: the text of each [print] call, the
    file names passed to [open], and the three counters. *)
Record state : Set := mkState {
  stdout : list string;
  opened : list string;
  c_error : nat;
  c_async : nat;
  c_await : nat
}.

(** A computation ends normally with a value, or with an exception that
    nothing caught; the state reached is kept in both cases. *)
Inductive result (A : Type) : Type :=
| Done (a : A) (s : state)
| Uncaught (e : exn) (s : state).
Arguments Done {A} a s.
Arguments Uncaught {A} e s.

Definition final_state {A} (r : result A) : state :=
  match r with Done _ s => s | Uncaught _ s => s end.

Definition M (A : Type) : Type := state -> result A.

Definition ret {A} (a : A) : M A := fun s => Done a s.

Definition bind {A B} (m : M A) (k : A -> M B) : M B :=
  fun s => match m s with
           | Done a s' => k a s'
           | Uncaught e s' => Uncaught e s'
           end.

Definition raise {A} (e : exn) : M A := fun s => Uncaught e s.

Definition get : M state := fun s => Done s s.

Definition modify (f : state -> state) : M unit := fun s => Done tt (f s).

Declare Scope py_scope.
Delimit Scope py_scope with py.
Notation "x <- m ;; k" := (bind m (fun x => k))
  (at level 61, m at next level, right associativity) : py_scope.
Notation "m ;; k" := (bind m (fun _ => k))
  (at level 61, right associativity) : py_scope.
Local Open Scope py_scope.

(** A library call: its value, or its exception raised here. *)
Definition call {A} (o : outcome A) : M A :=
  match o with
  | Returns a => ret a
  | Raises e => raise e
  end.

(** [try: body / except <classes> as ex: handler ex]. *)
Definition try_except {A} (body : M A) (classes : list exn_class)
    (handler : exn -> M A) : M A :=
  fun s => match body s with
           | Done a s' => Done a s'
           | Uncaught e s' =>
               if existsb (isinstance e) classes then handler e s'
               else Uncaught e s'
           end.

(** [for x in xs: body x]. *)
Fixpoint for_each {A} (xs : list A) (body : A -> M unit) : M unit :=
  match xs with
  | [] => ret tt
  | x :: xs' => body x ;; for_each xs' body
  end.

Definition print (args : list string) : M unit :=
  modify (fun s => mkState (stdout s ++ [print_text args]) (opened s)
                           (c_error s) (c_async s) (c_await s)).

Definition log_open (filename : string) : M unit :=
  modify (fun s => mkState (stdout s) (opened s ++ [filename])
                           (c_error s) (c_async s) (c_await s)).

Definition set_counters (e a w : nat) : M unit :=
  modify (fun s => mkState (stdout s) (opened s) e a w).

Definition incr_error : M unit :=
  modify (fun s => mkState (stdout s) (opened s)
                           (c_error s + 1) (c_async s) (c_await s)).

Definition incr_async : M unit :=
  modify (fun s => mkState (stdout s) (opened s)
                           (c_error s) (c_async s + 1) (c_await s)).

Definition incr_await : M unit :=
  modify (fun s => mkState (stdout s) (opened s)
                           (c_error s) (c_async s) (c_await s + 1)).

(* ================================================================== *)
(** ** The script *)

Definition suffix : string := ".py".

Definition init_state : state := mkState [] [] 0 0 0.

(** Lines 34-44: the body of [for tok in tokens]. *)
Definition report_token (filename : string) (tok : TokenInfo) : M unit :=
  if Nat.eqb (tok_type tok) NAME &&
     (String.eqb (tok_string tok) "await" || String.eqb (tok_string tok) "async")
  then
    print [format3 (tok_string tok) filename (str_pair (tok_start tok))] ;;
    (if String.eqb (tok_string tok) "await" then incr_await else ret tt) ;;
    (if String.eqb (tok_string tok) "async" then incr_async else ret tt)
  else ret tt.

(** Lines 24-44: what is done with one file name that passed the test of
    line 20.  [None] from the [try] statement stands for the [continue] of
    line 31. *)
Definition scan_path (E : Env) (filename : string) : M unit :=
  log_open filename ;;
  f <- call (open_rb E filename) ;;
  r <- try_except
         (tokens <- call (py_list (tokenize E f)) ;; ret (Some tokens))
         [SyntaxError; UnicodeDecodeError]
         (fun ex => print ["ERROR"; filename; exn_str ex] ;;
                    incr_error ;;
                    ret None) ;;
  match r with
  | None => ret tt
  | Some tokens => for_each tokens (report_token filename)
  end.

(** Lines 19-44: the body of [for name in files]. *)
Definition scan_file (E : Env) (root name : string) : M unit :=
  if negb (endswith name suffix) then ret tt
  else scan_path E (join root name).

(** Lines 13-49, over what [os.walk(dir)] yields. *)
Definition script (E : Env) (dir : string) (walked : list Os.triple) : M unit :=
  print ["Directory: "; dir] ;;
  print [] ;;
  set_counters 0 0 0 ;;
  for_each walked
    (fun '(root, dirs, files) => for_each files (scan_file E root)) ;;
  print [] ;;
  s <- get ;; print ["# of errors: "; str_int (c_error s)] ;;
  s <- get ;; print ["# of `await`: "; str_int (c_await s)] ;;
  s <- get ;; print ["# of `async`: "; str_int (c_async s)].

(** A run on directory [dir] (the absolute path of line 12): [None] when
    [fuel] does not cover the depth of the tree. *)
Definition main (E : Env) (fuel : nat) (dir : string) : option (result unit) :=
  match Os.walk E false fuel dir with
  | None => None
  | Some walked => Some (script E dir walked init_state)
  end.

(* ================================================================== *)
(** ** Vocabulary of the statements *)

(** The exceptions the [except] clause of line 28 catches. *)
Definition caught (e : exn) : bool :=
  existsb (isinstance e) [SyntaxError; UnicodeDecodeError].

(** NAME tokens spelled [kw]. *)
Definition name_tokens (kw : string) (toks : list TokenInfo) : list TokenInfo :=
  filter (fun tok => Nat.eqb (tok_type tok) NAME && String.eqb (tok_string tok) kw)
         toks.

(** NAME tokens spelled [await] or [async], in source order. *)
Definition keyword_tokens (toks : list TokenInfo) : list TokenInfo :=
  filter (fun tok => Nat.eqb (tok_type tok) NAME &&
                     (String.eqb (tok_string tok) "await" ||
                      String.eqb (tok_string tok) "async"))
         toks.

(** The report line of a match and of a failure. *)
Definition match_line (filename : string) (tok : TokenInfo) : string :=
  tok_string tok ++ TAB ++ filename ++ ": " ++ str_pair (tok_start tok).

Definition error_line (filename : string) (e : exn) : string :=
  "ERROR " ++ filename ++ " " ++ exn_str e.

(** What happens to one file: it is tokenized to the end, or its
    tokenization fails with a caught exception, or an exception gets out of
    the loop ([open] raised, or the tokenizer raised one that is not
    caught). *)
Inductive file_result : Set :=
| Tokenized (toks : list TokenInfo)
| Failed (e : exn)
| Aborts (e : exn).

Definition file_result_of (E : Env) (filename : string) : file_result :=
  match open_rb E filename with
  | Raises e => Aborts e
  | Returns f =>
      match py_list (tokenize E f) with
      | Returns toks => Tokenized toks
      | Raises e => if caught e then Failed e else Aborts e
      end
  end.

Definition aborts (E : Env) (filename : string) : bool :=
  match file_result_of E filename with Aborts _ => true | _ => false end.

Definition tokenized (E : Env) (filename : string) : bool :=
  match file_result_of E filename with Tokenized _ => true | _ => false end.

Definition failed (E : Env) (filename : string) : bool :=
  match file_result_of E filename with Failed _ => true | _ => false end.

(** The report lines of one file, and what it adds to each counter. *)
Definition lines_of (E : Env) (filename : string) : list string :=
  match file_result_of E filename with
  | Tokenized toks => map (match_line filename) (keyword_tokens toks)
  | Failed e => [error_line filename e]
  | Aborts _ => []
  end.

Definition errors_of (E : Env) (filename : string) : nat :=
  if failed E filename then 1 else 0.

Definition names_of (kw : string) (E : Env) (filename : string) : nat :=
  match file_result_of E filename with
  | Tokenized toks => List.length (name_tokens kw toks)
  | _ => 0
  end.

Definition total (f : string -> nat) (files : list string) : nat :=
  list_sum (map f files).

(** The file names the two loops pass on to line 23, in order. *)
Definition scanned (walked : list Os.triple) : list string :=
  flat_map (fun '(root, _, files) =>
              map (join root) (filter (fun name => endswith name suffix) files))
           walked.

(** All the file names [os.walk] yielded, joined to their directory. *)
Definition enumerated (walked : list Os.triple) : list (string * string) :=
  flat_map (fun '(root, _, files) => map (fun name => (root, name)) files)
           walked.

(** A state moved on by some lines, some opened files and counter
    increments. *)
Definition advance (lines files : list string) (de da dw : nat) (s : state)
    : state :=
  mkState (stdout s ++ lines) (opened s ++ files)
          (c_error s + de) (c_async s + da) (c_await s + dw).

(** The three summary lines of a state. *)
Definition summary (s : state) : list string :=
  [ EmptyString;
    ("# of errors:  " ++ str_int (c_error s))%string;
    ("# of `await`:  " ++ str_int (c_await s))%string;
    ("# of `async`:  " ++ str_int (c_async s))%string ].

Definition header (dir : string) : list string :=
  [ ("Directory:  " ++ dir)%string; EmptyString ].

(** No file of the list aborts the loop. *)
Definition all_pass (E : Env) (files : list string) : bool :=
  forallb (fun f => negb (aborts E f)) files.

(** The state after the loops of a run in which no file aborts. *)
Definition loops_state (E : Env) (dir : string) (files : list string) : state :=
  advance (flat_map (lines_of E) files) files
          (total (errors_of E) files)
          (total (names_of "async" E) files)
          (total (names_of "await" E) files)
          (mkState (header dir) [] 0 0 0).

(** The state at the end of such a run. *)
Definition end_state (E : Env) (dir : string) (files : list string) : state :=
  let s := loops_state E dir files in
  mkState (stdout s ++ summary s) (opened s) (c_error s) (c_async s) (c_await s).

(* ================================================================== *)
(** ** Vocabulary of the statements about the walk *)

(** The last character of a string. *)
Fixpoint last_char (s : string) : option ascii :=
  match s with
  | EmptyString => None
  | String c EmptyString => Some c
  | String _ s' => last_char s'
  end.

(** No character of [s] is the path separator. *)
Fixpoint no_sep (s : string) : bool :=
  match s with
  | EmptyString => true
  | String c s' => negb (Ascii.eqb c "/") && no_sep s'
  end.

(** A name as a directory holds them: not empty, no separator in it. *)
Definition plain (name : string) : bool :=
  negb (String.eqb name EmptyString) && no_sep name.

(** What [join] puts before a plain name. *)
Definition base (top : string) : string :=
  if String.eqb top EmptyString || endswith top sep then top
  else (top ++ sep)%string.

(** Every listing of the environment holds plain names, each once. *)
Definition well_listed (E : Env) : Prop :=
  forall top entries,
    scandir E top = Some entries ->
    NoDup (map entry_name entries)
    /\ Forall (fun d => plain (entry_name d) = true) entries.

(** The directory of a triple. *)
Definition root_of (t : Os.triple) : string := fst (fst t).

(** Where the directories below [top] are: at [top]'s base, a plain name,
    and then nothing or a separator and more. *)
Definition below (top name r : string) : Prop :=
  plain name = true /\
  exists s, (s = EmptyString \/ startswith s sep = true)
            /\ r = (base top ++ name ++ s)%string.

(** Two environments show the same tree when each directory has the same
    entries, listed in whatever order, and links, files and tokenizer are
    the same. *)
Definition same_tree (E1 E2 : Env) : Prop :=
  (forall p, match scandir E1 p, scandir E2 p with
             | Some l1, Some l2 => Permutation l1 l2
             | None, None => True
             | _, _ => False
             end)
  /\ (forall p, islink E1 p = islink E2 p)
  /\ (forall p, open_rb E1 p = open_rb E2 p)
  /\ (forall c, tokenize E1 c = tokenize E2 c).

(* ================================================================== *)
(** ** Tactics *)

(** Equality of two states built field by field. *)
Ltac state_eq :=
  unfold advance; simpl;
  rewrite ?app_nil_r, <- ?app_assoc, ?Nat.add_0_r; simpl;
  f_equal; try lia; auto.

(* ================================================================== *)
(** ** Sample environments *)

Module Sample.

Definition LF : string := String (ascii_of_nat 10) EmptyString.

Definition bytes (s : string) : list Byte.byte := list_byte_of_string s.

Definition bytes_eqb (a b : list Byte.byte) : bool :=
  String.eqb (string_of_list_byte a) (string_of_list_byte b).

(** Token types other than NAME.  The numbers of [OP], [NL] and
    [ENCODING] are those of CPython 3.8 and 3.9; they differ in other
    versions, and any number other than 1 does for them here. *)
Definition ENDMARKER : nat := 0.
Definition NUMBER : nat := 2.
Definition STRING : nat := 3.
Definition NEWLINE : nat := 4.
Definition OP : nat := 54.
Definition NL : nat := 61.
Definition ENCODING : nat := 62.

Definition tk (ty : nat) (text : string) (row col : nat) (line : string)
    : TokenInfo :=
  mkTok ty text (row, col) (row, col + String.length text) line.

Definition encoding_token : TokenInfo := mkTok ENCODING "utf-8" (0, 0) (0, 0) EmptyString.

(** [a.py]: one [await] and one other identifier. *)
Definition a_py : list Byte.byte := bytes ("x = await" ++ LF).

Definition a_tokens : list TokenInfo :=
  let l1 := ("x = await" ++ LF)%string in
  [ encoding_token;
    tk NAME "x" 1 0 l1; tk OP "=" 1 2 l1; tk NAME "await" 1 4 l1;
    tk NEWLINE LF 1 9 l1;
    tk ENDMARKER EmptyString 2 0 EmptyString ].

(** [b.py]: two good lines, then a byte that is not UTF-8. *)
Definition b_py : list Byte.byte :=
  bytes ("await = 1" ++ LF ++ "async = 2" ++ LF ++ "z = '") ++ [Byte.xff]
  ++ bytes ("'" ++ LF).

Definition b_tokens : list TokenInfo :=
  let l1 := ("await = 1" ++ LF)%string in
  let l2 := ("async = 2" ++ LF)%string in
  [ encoding_token;
    tk NAME "await" 1 0 l1; tk OP "=" 1 6 l1; tk NUMBER "1" 1 8 l1;
    tk NEWLINE LF 1 9 l1;
    tk NAME "async" 2 0 l2; tk OP "=" 2 6 l2; tk NUMBER "2" 2 8 l2;
    tk NEWLINE LF 2 9 l2 ].

Definition b_error : exn :=
  mkExn UnicodeDecodeError
        "'utf-8' codec can't decode byte 0xff in position 5: invalid start byte".

(** [c.py]: two [async], one [await], and a string that spells [await]. *)
Definition c_py : list Byte.byte :=
  bytes ("async = 1" ++ LF ++ "await = async" ++ LF ++ "'await await'" ++ LF).

Definition c_tokens : list TokenInfo :=
  let l1 := ("async = 1" ++ LF)%string in
  let l2 := ("await = async" ++ LF)%string in
  let l3 := ("'await await'" ++ LF)%string in
  [ encoding_token;
    tk NAME "async" 1 0 l1; tk OP "=" 1 6 l1; tk NUMBER "1" 1 8 l1;
    tk NEWLINE LF 1 9 l1;
    tk NAME "await" 2 0 l2; tk OP "=" 2 6 l2; tk NAME "async" 2 8 l2;
    tk NEWLINE LF 2 13 l2;
    tk STRING "'await await'" 3 0 l3; tk NEWLINE LF 3 13 l3;
    tk ENDMARKER EmptyString 4 0 EmptyString ].

(** [e.py]: no keyword at all. *)
Definition e_py : list Byte.byte := bytes ("awaited = 1" ++ LF).

Definition e_tokens : list TokenInfo :=
  let l1 := ("awaited = 1" ++ LF)%string in
  [ encoding_token;
    tk NAME "awaited" 1 0 l1; tk OP "=" 1 8 l1; tk NUMBER "1" 1 10 l1;
    tk NEWLINE LF 1 11 l1;
    tk ENDMARKER EmptyString 2 0 EmptyString ].

(** [u.py]: a bracket that is never closed; [tokenize] ends with
    [tokenize.TokenError]. *)
Definition u_py : list Byte.byte := bytes ("[1, 2, 3" ++ LF).

Definition u_tokens : list TokenInfo :=
  let l1 := ("[1, 2, 3" ++ LF)%string in
  [ encoding_token;
    tk OP "[" 1 0 l1; tk NUMBER "1" 1 1 l1; tk OP "," 1 2 l1;
    tk NUMBER "2" 1 4 l1; tk OP "," 1 5 l1; tk NUMBER "3" 1 7 l1;
    tk NL LF 1 8 l1 ].

Definition u_error : exn :=
  mkExn TokenError "('EOF in multi-line statement', (2, 0))".

(** The tokenizer on the sample files. *)
Definition sample_tokenize (content : list Byte.byte) : TokenStream :=
  if bytes_eqb content a_py then mkStream a_tokens None
  else if bytes_eqb content b_py then mkStream b_tokens (Some b_error)
  else if bytes_eqb content c_py then mkStream c_tokens None
  else if bytes_eqb content e_py then mkStream e_tokens None
  else if bytes_eqb content u_py then mkStream u_tokens (Some u_error)
  else mkStream [encoding_token] None.

Definition no_such_file : exn :=
  mkExn OSError "[Errno 2] No such file or directory".

Definition file_entry (name : string) : DirEntry := mkEntry name false.
Definition dir_entry (name : string) : DirEntry := mkEntry name true.

(** A tree [/r] with the files above, a text file, a sub-directory, a
    directory that cannot be read, and a link [loop] back to [/r]: every
    path [/r/loop/.../loop] lists the same directory as [/r]. *)
Definition tree_scandir (p : string) : option (list DirEntry) :=
  if endswith p "/sub" then Some [file_entry "e.py"; file_entry "x.PY"]
  else if endswith p "/locked" then None
  else if String.eqb p "/r" || endswith p "/loop" then
    Some [ file_entry "a.py"; file_entry "d.txt"; dir_entry "sub";
           file_entry "b.py"; dir_entry "loop"; dir_entry "locked";
           file_entry "c.py" ]
  else None.

Definition tree_islink (p : string) : bool := endswith p "/loop".

Definition tree_open (p : string) : outcome (list Byte.byte) :=
  if String.eqb p "/r/a.py" then Returns a_py
  else if String.eqb p "/r/b.py" then Returns b_py
  else if String.eqb p "/r/c.py" then Returns c_py
  else if String.eqb p "/r/sub/e.py" then Returns e_py
  else Raises no_such_file.

Definition tree : Env := mkEnv tree_scandir tree_islink tree_open sample_tokenize.

(** The same tree with every directory listed backwards. *)
Definition tree_reversed : Env :=
  mkEnv (fun p => option_map (@rev DirEntry) (tree_scandir p))
        tree_islink tree_open sample_tokenize.

(** The paths that name the root directory of [tree]. *)
Definition names_root (p : string) : bool :=
  String.eqb p "/r" || endswith p "/loop".

(** How far below a path the real directories of [tree] go. *)
Definition tree_rank (p : string) : nat :=
  if endswith p "/sub" || endswith p "/locked" then 0 else 1.

(** A directory [/q] with an unfinished file between two good ones. *)
Definition unfinished : Env :=
  mkEnv (fun p => if String.eqb p "/q"
                  then Some [file_entry "a.py"; file_entry "u.py"; file_entry "c.py"]
                  else None)
        (fun _ => false)
        (fun p => if String.eqb p "/q/a.py" then Returns a_py
                  else if String.eqb p "/q/u.py" then Returns u_py
                  else if String.eqb p "/q/c.py" then Returns c_py
                  else Raises no_such_file)
        sample_tokenize.

(** An empty directory [/empty]. *)
Definition empty : Env :=
  mkEnv (fun p => if String.eqb p "/empty" then Some [] else None)
        (fun _ => false)
        (fun _ => Raises no_such_file)
        sample_tokenize.

(** The directory [/q] listed backwards. *)
Definition unfinished_reversed : Env :=
  mkEnv (fun p => option_map (@rev DirEntry) (scandir unfinished p))
        (islink unfinished) (open_rb unfinished) sample_tokenize.

(** The tree [/r] where the directory [/r/locked] can be searched but
    not listed (mode [--x]): [os.scandir] fails on it, and its file
    [g.py] opens by name. *)
Definition searchable : Env :=
  mkEnv tree_scandir tree_islink
        (fun p => if String.eqb p "/r/locked/g.py" then Returns e_py
                  else tree_open p)
        sample_tokenize.

End Sample.

(* ================================================================== *)
(** ** Vocabulary of the further properties *)

(** Report lines told apart by how they start. *)
Definition is_await_line (l : string) : bool := startswith l ("await" ++ TAB).
Definition is_async_line (l : string) : bool := startswith l ("async" ++ TAB).
Definition is_error_line (l : string) : bool := startswith l "ERROR ".

Definition count_lines (p : string -> bool) (ls : list string) : nat :=
  List.length (filter p ls).

(** The two loops of lines 18-44. *)
Definition loops (E : Env) (walked : list Os.triple) : M unit :=
  for_each walked
    (fun '(root, dirs, files) => for_each files (scan_file E root)).

(** The sample tree seen through an environment that differs wherever the
    script does not look: no directory can be listed, every path is a
    link, [d.txt] holds the text of [c.py], and the tokenizer gives
    nothing for contents other than those of the four [.py] files. *)
Definition elsewhere : Env :=
  mkEnv (fun _ => None)
        (fun _ => true)
        (fun p => if String.eqb p "/r/d.txt" then Returns Sample.c_py
                  else Sample.tree_open p)
        (fun c => if Sample.bytes_eqb c Sample.u_py then mkStream [] None
                  else Sample.sample_tokenize c).

(** The directories a scan of [dir] can reach: [dir] itself, and every
    entry of a listed reachable directory that is a directory and no
    symbolic link. *)
Inductive reachable (E : Env) (dir : string) : string -> Prop :=
| reach_root : reachable E dir dir
| reach_entry (parent : string) (entries : list DirEntry) (d : DirEntry) :
    reachable E dir parent ->
    scandir E parent = Some entries ->
    In d entries ->
    entry_is_dir d = true ->
    islink E (join parent (entry_name d)) = false ->
    reachable E dir (join parent (entry_name d)).

(* ================================================================== *)
(** ** [tokenize.tokenize] *)

(** The tokenizer behind the [tokenize] field of an environment, as
    CPython 3.8 has it in [Lib/tokenize.py]: [tokenize],
    [detect_encoding] and the generator [_tokenize].  The regular
    expressions, the tables built from them and the codecs are taken as
    they come, in a record [Lexicon]; the control flow, the counting of
    lines and the positions given to the tokens are written out. *)
Module Tokenize.

(** Token types of [Lib/token.py]. *)
Definition ENDMARKER : nat := 0.
Definition NUMBER : nat := 2.
Definition STRING : nat := 3.
Definition NEWLINE : nat := 4.
Definition INDENT : nat := 5.
Definition DEDENT : nat := 6.
Definition OP : nat := 54.
Definition ERRORTOKEN : nat := 59.
Definition COMMENT : nat := 60.
Definition NL : nat := 61.
Definition ENCODING : nat := 62.

Definition LF : string := String (ascii_of_nat 10) EmptyString.
Definition CR : string := String (ascii_of_nat 13) EmptyString.
Definition FF : string := String (ascii_of_nat 12) EmptyString.
Definition BACKSLASH : string := String (ascii_of_nat 92) EmptyString.

Definition tabsize : nat := 8.

(** Slices of a [str]: [s[a:b]], [s[a:]], [s[:b]], [s[-n:]] and [s[i]]
    (for [0 <= a <= b] and [i < len(s)]). *)
Definition slice (s : string) (a b : nat) : string := substring a (b - a) s.
Definition from (s : string) (a : nat) : string :=
  substring a (String.length s - a) s.
Definition upto (s : string) (b : nat) : string := substring 0 b s.
Definition last (s : string) (n : nat) : string := from s (String.length s - n).
Definition item (s : string) (i : nat) : string := slice s i (S i).

(** [needle in hay]. *)
Fixpoint contains (hay needle : string) : bool :=
  String.prefix needle hay ||
  match hay with
  | EmptyString => false
  | String _ hay' => contains hay' needle
  end.

(** [s.rstrip('\r\n')]. *)
Fixpoint rstrip_newlines (s : string) : string :=
  match s with
  | EmptyString => EmptyString
  | String c s' =>
      match rstrip_newlines s' with
      | EmptyString =>
          if contains (CR ++ LF) (String c EmptyString) then EmptyString
          else String c EmptyString
      | t => String c t
      end
  end.

(** The lines that successive calls of [f.readline] give for a file
    opened in binary mode, up to the empty one that marks its end: each
    ends after its newline byte, the last perhaps without one. *)
Fixpoint readlines_from (line : list Byte.byte) (content : list Byte.byte)
    : list (list Byte.byte) :=
  match content with
  | [] => match line with [] => [] | _ => [rev line] end
  | b :: content' =>
      if Byte.eqb b Byte.x0a then rev (b :: line) :: readlines_from [] content'
      else readlines_from (b :: line) content'
  end.

Definition readlines (content : list Byte.byte) : list (list Byte.byte) :=
  readlines_from [] content.

(** What the module takes from [re], [codecs] and [str]:
    - [decode encoding line] is [line.decode(encoding)];
    - [find_cookie bom_found line] is the inner function of
      [detect_encoding]: the encoding a line declares, if it declares
      one, and [SyntaxError] for a line that is not UTF-8 or declares an
      encoding that is unknown or at odds with a byte-order mark;
    - [blank_re line] tells whether [blank_re.match(line)] matches;
    - [pseudomatch line pos] is [span(1)] of
      [_compile(PseudoToken).match(line, pos)], with
      [pos <= start <= end <= len(line)], and [None] without a match;
    - [triple_quoted] and [single_quoted] are membership in these sets;
    - [triple_endprog token] is [_compile(endpats[token])] and
      [single_endprog token] is [_compile(endpats.get(initial) or
      endpats.get(token[1]) or endpats.get(token[2]))], a compiled
      pattern [p] being given by [p.match(line, pos).end(0)];
    - [isidentifier initial] is [initial.isidentifier()]. *)
Record Lexicon : Type := mkLexicon {
  decode : string -> list Byte.byte -> outcome string;
  find_cookie : bool -> list Byte.byte -> outcome (option string);
  blank_re : list Byte.byte -> bool;
  pseudomatch : string -> nat -> option (nat * nat);
  triple_quoted : string -> bool;
  single_quoted : string -> bool;
  triple_endprog : string -> string -> nat -> option nat;
  single_endprog : string -> string -> nat -> option nat;
  isidentifier : string -> bool
}.

(** [first.startswith(BOM_UTF8)]. *)
Definition starts_with_bom (line : list Byte.byte) : bool :=
  match line with
  | b1 :: b2 :: b3 :: _ =>
      Byte.eqb b1 Byte.xef && Byte.eqb b2 Byte.xbb && Byte.eqb b3 Byte.xbf
  | _ => false
  end.

Definition no_bytes (line : list Byte.byte) : bool :=
  match line with [] => true | _ => false end.

(** [detect_encoding(readline)] on the lines [raw] still to read: the
    encoding, the lines it consumed (the first without its byte-order
    mark), and the lines left to read after it. *)
Definition detect_encoding (L : Lexicon) (raw : list (list Byte.byte))
    : outcome (string * list (list Byte.byte) * list (list Byte.byte)) :=
  let first := hd [] raw in
  let bom_found := starts_with_bom first in
  let first := if bom_found then skipn 3 first else first in
  let default := if bom_found then "utf-8-sig" else "utf-8" in
  if no_bytes first then Returns (default, [], skipn 1 raw)
  else
    match find_cookie L bom_found first with
    | Raises e => Raises e
    | Returns (Some encoding) => Returns (encoding, [first], skipn 1 raw)
    | Returns None =>
        if negb (blank_re L first) then Returns (default, [first], skipn 1 raw)
        else
          let second := hd [] (skipn 1 raw) in
          if no_bytes second then Returns (default, [first], skipn 2 raw)
          else
            match find_cookie L bom_found second with
            | Raises e => Raises e
            | Returns (Some encoding) =>
                Returns (encoding, [first; second], skipn 2 raw)
            | Returns None => Returns (default, [first; second], skipn 2 raw)
            end
    end.

(** A stretch of the generator: the tokens it yields, and then the value
    it goes on with or the exception it raises; [Hangs] when the fuel of
    a loop was not enough. *)
Inductive run (A : Type) : Type :=
| Goes (toks : list TokenInfo) (a : A)
| Fails (toks : list TokenInfo) (e : exn)
| Hangs.
Arguments Goes {A} toks a.
Arguments Fails {A} toks e.
Arguments Hangs {A}.

Definition pass {A} (a : A) : run A := Goes [] a.
Definition yield (tok : TokenInfo) : run unit := Goes [tok] tt.
Definition raise {A} (e : exn) : run A := Fails [] e.

Definition andthen {A B} (m : run A) (k : A -> run B) : run B :=
  match m with
  | Goes toks a =>
      match k a with
      | Goes toks' b => Goes (toks ++ toks') b
      | Fails toks' e => Fails (toks ++ toks') e
      | Hangs => Hangs
      end
  | Fails toks e => Fails toks e
  | Hangs => Hangs
  end.

Local Notation "x <~ m ;; k" := (andthen m (fun x => k))
  (at level 61, m at next level, right associativity).
Local Notation "m ;;; k" := (andthen m (fun _ => k))
  (at level 61, right associativity).

(** The local variables of [_tokenize] that live from one line to the
    next.  [indents] is kept with its last element first; [contline],
    which is [None] while no string is open, is then the empty string,
    and [endprog], unbound until a string is left open, matches nothing
    until then. *)
Record vars : Type := mkVars {
  lnum : nat;
  parenlev : Z;
  continued : bool;
  contstr : string;
  needcont : bool;
  contline : string;
  indents : list nat;
  strstart : nat * nat;
  endprog : string -> nat -> option nat;
  last_line : string;
  line_read : string
}.

Definition initial_vars : vars :=
  mkVars 0 0%Z false EmptyString false EmptyString [0] (0, 0)
         (fun _ _ => None) EmptyString EmptyString.

Definition token_error (msg : string) (pos : nat * nat) : exn :=
  mkExn TokenError ("('" ++ msg ++ "', " ++ str_pair pos ++ ")").

Definition indentation_error (msg : string) (lineno : nat) : exn :=
  mkExn IndentationError
        (msg ++ " (<tokenize>, line " ++ str_int lineno ++ ")").

(** The loop that measures the leading whitespace of [line], from
    [pos]: the position and the column where it stops. *)
Fixpoint measure (rest : string) (pos column : nat) : nat * nat :=
  match rest with
  | EmptyString => (pos, column)
  | String c rest' =>
      if Ascii.eqb c " " then measure rest' (S pos) (S column)
      else if Ascii.eqb c (ascii_of_nat 9) then
        measure rest' (S pos) ((column / tabsize + 1) * tabsize)
      else if Ascii.eqb c (ascii_of_nat 12) then measure rest' (S pos) 0
      else (pos, column)
  end.

(** The loop [while column < indents[-1]]. *)
Fixpoint dedents (n pos column : nat) (line : string) (stack : list nat)
    : run (list nat) :=
  match stack with
  | [] => pass []
  | top :: below =>
      if Nat.ltb column top then
        if negb (existsb (Nat.eqb column) stack) then
          raise (indentation_error
                   "unindent does not match any outer indentation level" n)
        else
          yield (mkTok DEDENT EmptyString (n, pos) (n, pos) line) ;;;
          dedents n pos column line below
      else pass stack
  end.

(** One round of the loop [while pos < max] over the pseudo-tokens of a
    line: the next position and the variables, and whether the loop is
    left by [break].  (The [assert] that a comment token does not end in
    a newline, which the pattern of comments ensures, is left out.) *)
Definition pseudo_token (L : Lexicon) (line : string) (pos : nat) (v : vars)
    : run (nat * vars * bool) :=
  match pseudomatch L line pos with
  | Some (start, end_) =>
      let spos := (lnum v, start) in
      let epos := (lnum v, end_) in
      let pos := end_ in
      if Nat.eqb start end_ then pass (pos, v, false)
      else
        let token := slice line start end_ in
        let initial := item line start in
        if contains "0123456789" initial
           || (String.eqb initial "." && negb (String.eqb token ".")
               && negb (String.eqb token "..."))
        then yield (mkTok NUMBER token spos epos line) ;;; pass (pos, v, false)
        else if contains (CR ++ LF) initial then
          (if Z.gtb (parenlev v) 0
           then yield (mkTok NL token spos epos line)
           else yield (mkTok NEWLINE token spos epos line)) ;;;
          pass (pos, v, false)
        else if String.eqb initial "#" then
          yield (mkTok COMMENT token spos epos line) ;;; pass (pos, v, false)
        else if triple_quoted L token then
          match triple_endprog L token line pos with
          | Some end0 =>
              yield (mkTok STRING (slice line start end0) spos (lnum v, end0)
                           line) ;;;
              pass (end0, mkVars (lnum v) (parenlev v) (continued v)
                                 (contstr v) (needcont v) (contline v)
                                 (indents v) (strstart v)
                                 (triple_endprog L token)
                                 (last_line v) (line_read v), false)
          | None =>
              pass (pos, mkVars (lnum v) (parenlev v) (continued v)
                                (from line start) (needcont v) line
                                (indents v) (lnum v, start)
                                (triple_endprog L token)
                                (last_line v) (line_read v), true)
          end
        else if single_quoted L initial || single_quoted L (upto token 2)
                || single_quoted L (upto token 3) then
          if String.eqb (last token 1) LF then
            pass (pos, mkVars (lnum v) (parenlev v) (continued v)
                              (from line start) true line
                              (indents v) (lnum v, start)
                              (single_endprog L token)
                              (last_line v) (line_read v), true)
          else
            yield (mkTok STRING token spos epos line) ;;; pass (pos, v, false)
        else if isidentifier L initial then
          yield (mkTok NAME token spos epos line) ;;; pass (pos, v, false)
        else if String.eqb initial BACKSLASH then
          pass (pos, mkVars (lnum v) (parenlev v) true
                            (contstr v) (needcont v) (contline v)
                            (indents v) (strstart v) (endprog v)
                            (last_line v) (line_read v), false)
        else
          let parenlev' :=
            if contains "([{" initial then (parenlev v + 1)%Z
            else if contains ")]}" initial then (parenlev v - 1)%Z
            else parenlev v in
          yield (mkTok OP token spos epos line) ;;;
          pass (pos, mkVars (lnum v) parenlev' (continued v)
                            (contstr v) (needcont v) (contline v)
                            (indents v) (strstart v) (endprog v)
                            (last_line v) (line_read v), false)
  | None =>
      yield (mkTok ERRORTOKEN (item line pos) (lnum v, pos) (lnum v, S pos)
                   line) ;;;
      pass (S pos, v, false)
  end.

(** The loop [while pos < max]. *)
Fixpoint pseudo_tokens (L : Lexicon) (fuel : nat) (line : string) (pos : nat)
    (v : vars) : run vars :=
  match fuel with
  | 0 => Hangs
  | S fuel' =>
      if Nat.ltb pos (String.length line) then
        r <~ pseudo_token L line pos v ;;
        let '(pos', v', broke) := r in
        if broke then pass v' else pseudo_tokens L fuel' line pos' v'
      else pass v
  end.

(** One round of the loop [while True], from [lnum += 1] on, for the
    decoded line: the variables after it, and whether the loop is left
    by [break]. *)
Definition one_line (L : Lexicon) (fuel : nat) (v : vars) (line : string)
    : run (vars * bool) :=
  let n := S (lnum v) in
  let v0 := mkVars n (parenlev v) (continued v) (contstr v) (needcont v)
                   (contline v) (indents v) (strstart v) (endprog v)
                   (line_read v) line in
  let max := String.length line in
  if negb (String.eqb (contstr v) EmptyString) then
    if String.eqb line EmptyString then
      raise (token_error "EOF in multi-line string" (strstart v))
    else
      match endprog v line 0 with
      | Some end0 =>
          yield (mkTok STRING (contstr v ++ upto line end0) (strstart v)
                       (n, end0) (contline v ++ line)) ;;;
          v' <~ pseudo_tokens L fuel line end0
                  (mkVars n (parenlev v) (continued v) EmptyString false
                          EmptyString (indents v) (strstart v) (endprog v)
                          (line_read v) line) ;;
          pass (v', false)
      | None =>
          if needcont v
             && negb (String.eqb (last line 2) (BACKSLASH ++ LF))
             && negb (String.eqb (last line 3) (BACKSLASH ++ CR ++ LF))
          then
            yield (mkTok ERRORTOKEN (contstr v ++ line) (strstart v)
                         (n, String.length line) (contline v)) ;;;
            pass (mkVars n (parenlev v) (continued v) EmptyString
                         (needcont v) EmptyString (indents v) (strstart v)
                         (endprog v) (line_read v) line, false)
          else
            pass (mkVars n (parenlev v) (continued v) (contstr v ++ line)
                         (needcont v) (contline v ++ line) (indents v)
                         (strstart v) (endprog v) (line_read v) line,
                  false)
      end
  else if Z.eqb (parenlev v) 0 && negb (continued v) then
    if String.eqb line EmptyString then pass (v0, true)
    else
      let '(pos, column) := measure line 0 0 in
      if Nat.eqb pos max then pass (v0, true)
      else if contains ("#" ++ CR ++ LF) (item line pos) then
        pos' <~ (if String.eqb (item line pos) "#" then
                   let comment_token := rstrip_newlines (from line pos) in
                   yield (mkTok COMMENT comment_token (n, pos)
                                (n, pos + String.length comment_token)
                                line) ;;;
                   pass (pos + String.length comment_token)
                 else pass pos) ;;
        yield (mkTok NL (from line pos') (n, pos') (n, String.length line)
                     line) ;;;
        pass (v0, false)
      else
        stack <~ (if Nat.ltb (hd 0 (indents v)) column then
                    yield (mkTok INDENT (upto line pos) (n, 0) (n, pos)
                                 line) ;;;
                    pass (column :: indents v)
                  else pass (indents v)) ;;
        stack' <~ dedents n pos column line stack ;;
        v' <~ pseudo_tokens L fuel line pos
                (mkVars n (parenlev v) (continued v) (contstr v)
                        (needcont v) (contline v) stack' (strstart v)
                        (endprog v) (line_read v) line) ;;
        pass (v', false)
  else
    if String.eqb line EmptyString then
      raise (token_error "EOF in multi-line statement" (n, 0))
    else
      v' <~ pseudo_tokens L fuel line 0
              (mkVars n (parenlev v) false (contstr v) (needcont v)
                      (contline v) (indents v) (strstart v) (endprog v)
                      (line_read v) line) ;;
      pass (v', false).

(** The loop [while True] over the lines still to read.  Each is
    decoded as it is read; after the last of them [readline] gives the
    empty line, which decodes to the empty [str] and ends the loop or
    raises. *)
Fixpoint all_lines (L : Lexicon) (fuel : nat) (encoding : string) (v : vars)
    (lines : list (list Byte.byte)) : run vars :=
  match lines with
  | [] =>
      r <~ one_line L fuel v EmptyString ;;
      pass (fst r)
  | raw :: lines' =>
      match decode L encoding raw with
      | Raises e => raise e
      | Returns line =>
          r <~ one_line L fuel v line ;;
          if snd r then pass (fst r)
          else all_lines L fuel encoding (fst r) lines'
      end
  end.

Fixpoint yield_each (toks : list TokenInfo) : run unit :=
  match toks with
  | [] => pass tt
  | tok :: toks' => yield tok ;;; yield_each toks'
  end.

(** What follows the loop: the implicit NEWLINE, the DEDENTs still due
    and the ENDMARKER. *)
Definition at_end (v : vars) : run unit :=
  let n := lnum v in
  let previous := last_line v in
  (if negb (String.eqb previous EmptyString)
      && negb (contains (CR ++ LF) (last previous 1))
   then yield (mkTok NEWLINE EmptyString
                     (n - 1, String.length previous)
                     (n - 1, String.length previous + 1) EmptyString)
   else pass tt) ;;;
  yield_each (map (fun _ => mkTok DEDENT EmptyString (n, 0) (n, 0) EmptyString)
                  (removelast (indents v))) ;;;
  yield (mkTok ENDMARKER EmptyString (n, 0) (n, 0) EmptyString).

(** [_tokenize(readline, encoding)], [readline] giving [lines] and then
    empty lines for ever. *)
Definition _tokenize (L : Lexicon) (fuel : nat) (encoding : string)
    (lines : list (list Byte.byte)) : run unit :=
  (* the byte-order mark is already gone *)
  let encoding := if String.eqb encoding "utf-8-sig" then "utf-8"
                  else encoding in
  yield (mkTok ENCODING encoding (0, 0) (0, 0) EmptyString) ;;;
  v <~ all_lines L fuel encoding initial_vars lines ;;
  at_end v.

(** The lines [_tokenize] is given to read: those [detect_encoding]
    consumed, then the rest of the file. *)
Definition lines_read (L : Lexicon) (content : list Byte.byte)
    : outcome (string * list (list Byte.byte)) :=
  match detect_encoding L (readlines content) with
  | Raises e => Raises e
  | Returns (encoding, consumed, rest) => Returns (encoding, consumed ++ rest)
  end.

(** [tokenize(f.readline)] iterated to its end, for a file of the given
    content; [None] when [fuel] rounds were not enough for the
    pseudo-tokens of some line. *)
Definition tokenize (L : Lexicon) (fuel : nat) (content : list Byte.byte)
    : option TokenStream :=
  match lines_read L content with
  | Raises e => Some (mkStream [] (Some e))
  | Returns (encoding, lines) =>
      match _tokenize L fuel encoding lines with
      | Goes toks _ => Some (mkStream toks None)
      | Fails toks e => Some (mkStream toks (Some e))
      | Hangs => None
      end
  end.

(** The tokens a stretch of the generator yields. *)
Definition yields {A} (r : run A) : list TokenInfo :=
  match r with
  | Goes toks _ => toks
  | Fails toks _ => toks
  | Hangs => []
  end.

(** The lines of a file with the byte-order mark taken off the first,
    which is dropped if nothing else is in it. *)
Definition without_bom (raw : list (list Byte.byte)) : list (list Byte.byte) :=
  match raw with
  | [] => []
  | first :: more =>
      if starts_with_bom first then
        if no_bytes (skipn 3 first) then more else skipn 3 first :: more
      else raw
  end.

(** A token that is a NAME sits on line [n], read as [line]: it starts
    and ends there, and its text is cut from [line] between the two
    columns. *)
Definition placed (n : nat) (line : string) (tok : TokenInfo) : Prop :=
  tok_type tok = NAME ->
  exists c e,
    tok_start tok = (n, c) /\ tok_end tok = (n, e)
    /\ tok_string tok = slice line c e
    /\ tok_line tok = line.

End Tokenize.

(* ================================================================== *)
(** ** A lexicon for the sample files *)

(** What the patterns of [Lib/tokenize.py] and the UTF-8 codec give on
    sources written in ASCII with names, decimal numbers, one-character
    operators, comments and one-line strings in single quotes, which is
    all that the sample files hold. *)
Module Plain.

Definition is_space (c : ascii) : bool :=
  Ascii.eqb c " " || Ascii.eqb c (ascii_of_nat 9) || Ascii.eqb c (ascii_of_nat 12).

Definition is_digit (c : ascii) : bool :=
  Nat.leb 48 (nat_of_ascii c) && Nat.leb (nat_of_ascii c) 57.

Definition is_letter (c : ascii) : bool :=
  (Nat.leb 65 (nat_of_ascii c) && Nat.leb (nat_of_ascii c) 90)
  || (Nat.leb 97 (nat_of_ascii c) && Nat.leb (nat_of_ascii c) 122)
  || Ascii.eqb c "_".

Definition is_newline (c : ascii) : bool :=
  Ascii.eqb c (ascii_of_nat 10) || Ascii.eqb c (ascii_of_nat 13).

Definition is_operator (c : ascii) : bool :=
  Tokenize.contains "()[]{}=+-*/%<>,:;.@&|^~!" (String c EmptyString).

(** How many characters at the head of [s] satisfy [p]. *)
Fixpoint run_of (p : ascii -> bool) (s : string) : nat :=
  match s with
  | EmptyString => 0
  | String c s' => if p c then S (run_of p s') else 0
  end.

(** Where the quote that closes a string is, if on this line. *)
Fixpoint closing_quote (s : string) : option nat :=
  match s with
  | EmptyString => None
  | String c s' =>
      if Ascii.eqb c "'" then Some 0
      else if is_newline c then None
      else option_map S (closing_quote s')
  end.

Definition pseudomatch (line : string) (pos : nat) : option (nat * nat) :=
  let start := pos + run_of is_space (Tokenize.from line pos) in
  match Tokenize.from line start with
  | EmptyString => Some (start, start)
  | String c after =>
      if Ascii.eqb c (ascii_of_nat 10) then Some (start, start + 1)
      else if Ascii.eqb c (ascii_of_nat 13) then
        Some (start, start + 1 + run_of (Ascii.eqb (ascii_of_nat 10))
                                   (Tokenize.upto after 1))
      else if Ascii.eqb c "#" then
        Some (start, start + 1 + run_of (fun x => negb (is_newline x)) after)
      else if is_digit c then Some (start, start + 1 + run_of is_digit after)
      else if is_letter c then
        Some (start, start + 1 + run_of (fun x => is_letter x || is_digit x) after)
      else if Ascii.eqb c "'" then
        match closing_quote after with
        | Some k => Some (start, start + k + 2)
        | None => None
        end
      else if Ascii.eqb c (ascii_of_nat 92) then
        if String.prefix Tokenize.LF after then Some (start, start + 2)
        else None
      else if is_operator c then Some (start, start + 1)
      else None
  end.

(** The position of the first byte that is not ASCII. *)
Fixpoint first_high (raw : list Byte.byte) : option (nat * Byte.byte) :=
  match raw with
  | [] => None
  | b :: raw' =>
      if Nat.leb 128 (Byte.to_nat b) then Some (0, b)
      else option_map (fun '(i, h) => (S i, h)) (first_high raw')
  end.

Definition hex_digit (n : nat) : string :=
  Tokenize.item "0123456789abcdef" n.

Definition decode (encoding : string) (raw : list Byte.byte) : outcome string :=
  match first_high raw with
  | None => Returns (string_of_list_byte raw)
  | Some (i, b) =>
      Raises (mkExn UnicodeDecodeError
                ("'" ++ encoding ++ "' codec can't decode byte 0x"
                 ++ hex_digit (Byte.to_nat b / 16)
                 ++ hex_digit (Byte.to_nat b mod 16)
                 ++ " in position " ++ str_int i ++ ": invalid start byte"))
  end.

Definition find_cookie (bom_found : bool) (line : list Byte.byte)
    : outcome (option string) :=
  match first_high line with
  | None => Returns None
  | Some _ =>
      Raises (mkExn SyntaxError "invalid or missing encoding declaration")
  end.

Definition blank_re (line : list Byte.byte) : bool :=
  let s := string_of_list_byte line in
  match Tokenize.from s (run_of is_space s) with
  | EmptyString => true
  | String c _ => Ascii.eqb c "#" || is_newline c
  end.

Definition isidentifier (initial : string) : bool :=
  match initial with
  | String c EmptyString => is_letter c
  | _ => false
  end.

Definition lexicon : Tokenize.Lexicon :=
  Tokenize.mkLexicon decode find_cookie blank_re pseudomatch
    (fun _ => false) (fun t => String.eqb t "'")
    (fun _ _ _ => None) (fun _ _ _ => None) isidentifier.

End Plain.

(* ================================================================== *)
(** ** Strings and paths *)

Lemma endswith_refl (s : string) : endswith s s = true.
Proof.
  destruct s as [|c s]; [reflexivity|].
  unfold endswith. now rewrite String.eqb_refl.
Qed.

Lemma endswith_append (p suf : string) : endswith (p ++ suf) suf = true.
Proof.
  induction p as [|c p IH].
  - apply endswith_refl.
  - change (endswith (String c (p ++ suf)) suf = true).
    cbn [endswith].
    destruct (String.eqb (String c (p ++ suf)) suf); [reflexivity | exact IH].
Qed.

Lemma endswith_inv (s suf : string) :
  endswith s suf = true -> exists p, s = (p ++ suf)%string.
Proof.
  induction s as [|c s IH]; cbn [endswith].
  - destruct (String.eqb EmptyString suf) eqn:Heq; [|discriminate].
    intros _. apply String.eqb_eq in Heq. exists EmptyString. now subst.
  - destruct (String.eqb (String c s) suf) eqn:Heq.
    + intros _. apply String.eqb_eq in Heq. exists EmptyString. now subst.
    + intros H. destruct (IH H) as [p ->]. now exists (String c p).
Qed.

(** [endswith] is Python's suffix test: [s] ends with [suf] exactly when
    [s] is some string followed by [suf]. *)
Lemma endswith_iff (s suf : string) :
  endswith s suf = true <-> exists p, s = (p ++ suf)%string.
Proof.
  split; [apply endswith_inv | intros [p ->]; apply endswith_append].
Qed.

Lemma append_length (a b : string) :
  String.length (a ++ b) = String.length a + String.length b.
Proof. induction a as [|c a IH]; simpl; [reflexivity | now rewrite IH]. Qed.

Lemma append_assoc (a b c : string) :
  ((a ++ b) ++ c = a ++ (b ++ c))%string.
Proof. induction a as [|x a IH]; simpl; [reflexivity | now rewrite IH]. Qed.

Lemma append_inj_l (a b c : string) :
  (a ++ b = a ++ c)%string -> b = c.
Proof. induction a as [|x a IH]; simpl; [auto | intros [= H]; auto]. Qed.

Lemma append_empty_r (a : string) : (a ++ EmptyString)%string = a.
Proof. induction a as [|c a IH]; simpl; [reflexivity | now rewrite IH]. Qed.

Lemma last_char_append (p s : string) :
  s <> EmptyString -> last_char (p ++ s) = last_char s.
Proof.
  intros Hs. induction p as [|c p IH]; [reflexivity|].
  change (last_char (String c (p ++ s)) = last_char s).
  cbn [last_char]. destruct (p ++ s)%string eqn:Hp; [|exact IH].
  destruct p; simpl in Hp; [contradiction | discriminate].
Qed.

Lemma endswith_last_char (s suf : string) :
  endswith s suf = true -> suf <> EmptyString -> last_char s = last_char suf.
Proof.
  intros H Hs. apply endswith_inv in H as [p ->]. now apply last_char_append.
Qed.

(** Two suffixes with different last characters exclude each other. *)
Lemma endswith_excludes (s a b : string) :
  a <> EmptyString -> b <> EmptyString -> last_char a <> last_char b ->
  endswith s a = true -> endswith s b = false.
Proof.
  intros Ha Hb Hab H. destruct (endswith s b) eqn:H'; [|reflexivity].
  apply endswith_last_char in H, H'; auto. congruence.
Qed.

Lemma startswith_sep_cons (c : ascii) (s : string) :
  startswith (String c s) sep = Ascii.eqb c "/".
Proof.
  unfold startswith, sep. cbn -[ascii_dec].
  destruct (ascii_dec "/" c) as [<-|Hn].
  - now destruct s.
  - symmetry. apply Ascii.eqb_neq. congruence.
Qed.

Lemma plain_not_empty (name : string) :
  plain name = true -> name <> EmptyString.
Proof.
  unfold plain. intros H ->. discriminate.
Qed.

Lemma plain_startswith (name : string) :
  plain name = true -> startswith name sep = false.
Proof.
  unfold plain. destruct name as [|c name]; [discriminate|].
  rewrite startswith_sep_cons. simpl.
  now destruct (Ascii.eqb c "/").
Qed.

Lemma plain_last_char (name : string) :
  plain name = true -> last_char name <> Some "/"%char.
Proof.
  unfold plain. intros H. apply andb_prop in H as [_ H].
  induction name as [|c name IH]; [discriminate|].
  simpl in H. apply andb_prop in H as [Hc Hn].
  cbn [last_char]. destruct name as [|d name].
  - intros [= ->]. discriminate.
  - apply IH, Hn.
Qed.

(** A plain name is joined right after the base of the directory. *)
Lemma join_plain (top name : string) :
  plain name = true -> join top name = (base top ++ name)%string.
Proof.
  intros H. unfold join, base. rewrite (plain_startswith _ H).
  destruct (String.eqb top EmptyString || endswith top sep); [reflexivity|].
  now rewrite append_assoc.
Qed.

(** The base of such a path is the path and a separator. *)
Lemma base_join_plain (top name : string) :
  plain name = true ->
  base (base top ++ name) = (base top ++ name ++ sep)%string.
Proof.
  intros H. unfold base at 1.
  assert (String.eqb (base top ++ name) EmptyString = false) as ->.
  { apply String.eqb_neq. intros Heq.
    apply (f_equal String.length) in Heq. rewrite append_length in Heq.
    pose proof (plain_not_empty _ H). destruct name; [contradiction|].
    simpl in Heq. lia. }
  destruct (endswith (base top ++ name) sep) eqn:He.
  - apply endswith_last_char in He; [|discriminate].
    rewrite last_char_append in He by now apply plain_not_empty.
    now apply plain_last_char in H.
  - simpl. now rewrite append_assoc.
Qed.

Lemma base_length (top : string) : String.length top <= String.length (base top).
Proof.
  unfold base. destruct (_ || _); [lia|]. rewrite append_length. lia.
Qed.

(** Two plain names followed by nothing or by a separator and more are
    the same name when the whole strings are equal. *)
Lemma plain_split (n1 n2 s1 s2 : string) :
  no_sep n1 = true -> no_sep n2 = true ->
  (s1 = EmptyString \/ startswith s1 sep = true) ->
  (s2 = EmptyString \/ startswith s2 sep = true) ->
  (n1 ++ s1 = n2 ++ s2)%string -> n1 = n2.
Proof.
  revert n2; induction n1 as [|c n1 IH]; intros [|d n2]; simpl; intros H1 H2 S1 S2 Heq.
  - reflexivity.
  - exfalso. apply andb_prop in H2 as [Hd _]. subst s1.
    destruct S1 as [S1 | S1]; [discriminate|].
    rewrite startswith_sep_cons in S1. now rewrite S1 in Hd.
  - exfalso. apply andb_prop in H1 as [Hc _]. subst s2.
    destruct S2 as [S2 | S2]; [discriminate|].
    rewrite startswith_sep_cons in S2. now rewrite S2 in Hc.
  - apply andb_prop in H1 as [_ H1]. apply andb_prop in H2 as [_ H2].
    injection Heq as -> Heq. f_equal. eapply IH; eauto.
Qed.

Lemma str_int_reads_back (n : nat) :
  option_map Nat.of_uint (NilEmpty.uint_of_string (str_int n)) = Some n.
Proof.
  unfold str_int. rewrite NilEmpty.usu. simpl.
  now rewrite DecimalNat.Unsigned.of_to.
Qed.


(* ================================================================== *)
(** ** Lists *)

Lemma filter_cons_app {A} (p : A -> bool) (x : A) (xs : list A) :
  filter p (x :: xs) = filter p [x] ++ filter p xs.
Proof. simpl. now destruct (p x). Qed.

Lemma firstn_app_exact {A} (xs ys : list A) :
  firstn (List.length xs) (xs ++ ys) = xs.
Proof.
  rewrite firstn_app, Nat.sub_diag, firstn_all. simpl. apply app_nil_r.
Qed.

(** Keys stay distinct when elements are filtered out. *)
Lemma NoDup_keys_filter {A B} (key : A -> B) (keep : A -> bool) (xs : list A) :
  NoDup (map key xs) -> NoDup (map key (filter keep xs)).
Proof.
  induction xs as [|x xs IH]; simpl; [auto|].
  intros H. inversion H as [|? ? Hx Hxs]; subst.
  destruct (keep x); simpl; [|auto].
  constructor; [|auto]. intros Hin. apply Hx.
  apply in_map_iff in Hin as (y & Hy & Hin). apply filter_In in Hin as [Hin _].
  apply in_map_iff. now exists y.
Qed.

Lemma Permutation_filter {A} (p : A -> bool) (l l' : list A) :
  Permutation l l' -> Permutation (filter p l) (filter p l').
Proof.
  induction 1 as [|x l l' _ IH|x y l|l l' l'' _ IH1 _ IH2]; simpl.
  - constructor.
  - destruct (p x); [now constructor | exact IH].
  - destruct (p x), (p y); try reflexivity. apply perm_swap.
  - now transitivity (filter p l').
Qed.

Lemma list_sum_Permutation (l l' : list nat) :
  Permutation l l' -> list_sum l = list_sum l'.
Proof.
  induction 1 as [|x l l' _ IH|x y l|l l' l'' _ IH1 _ IH2]; simpl; lia.
Qed.


(* ================================================================== *)
(** ** States *)

Lemma advance_nothing (s : state) : advance [] [] 0 0 0 s = s.
Proof.
  destruct s; unfold advance; simpl.
  now rewrite !app_nil_r, !Nat.add_0_r.
Qed.

Lemma advance_advance l1 f1 e1 a1 w1 l2 f2 e2 a2 w2 (s : state) :
  advance l2 f2 e2 a2 w2 (advance l1 f1 e1 a1 w1 s)
  = advance (l1 ++ l2) (f1 ++ f2) (e1 + e2) (a1 + a2) (w1 + w2) s.
Proof.
  unfold advance; simpl. now rewrite !app_assoc, !Nat.add_assoc.
Qed.


(* ================================================================== *)
(** ** The token loop *)

Lemma for_each_app {A} (xs ys : list A) (body : A -> M unit) (s : state) :
  for_each (xs ++ ys) body s =
  match for_each xs body s with
  | Done _ s' => for_each ys body s'
  | Uncaught e s' => Uncaught e s'
  end.
Proof.
  revert s; induction xs as [|x xs IH]; intros s; simpl; [reflexivity|].
  unfold bind. destruct (body x s); [apply IH | reflexivity].
Qed.

(** One round of the token loop. *)
Lemma report_token_spec (filename : string) (tok : TokenInfo) (s : state) :
  report_token filename tok s =
  Done tt (advance (map (match_line filename) (keyword_tokens [tok])) []
                   0
                   (List.length (name_tokens "async" [tok]))
                   (List.length (name_tokens "await" [tok])) s).
Proof.
  unfold report_token, keyword_tokens, name_tokens; simpl filter.
  destruct (Nat.eqb (tok_type tok) NAME); simpl andb.
  2:{ unfold ret. now rewrite advance_nothing. }
  destruct (String.eqb (tok_string tok) "await") eqn:Hw;
    destruct (String.eqb (tok_string tok) "async") eqn:Ha; simpl orb.
  - apply String.eqb_eq in Hw, Ha. congruence.
  - unfold bind, print, modify, incr_await, ret, match_line, format3, print_text.
    simpl. f_equal. state_eq.
  - unfold bind, print, modify, incr_async, ret, match_line, format3, print_text.
    simpl. f_equal. state_eq.
  - unfold ret. now rewrite advance_nothing.
Qed.

(** The token loop of lines 33-44 prints one line per NAME token spelled
    [await] or [async] and counts each spelling; it raises nothing. *)
Lemma for_each_report_token (filename : string) (toks : list TokenInfo) (s : state) :
  for_each toks (report_token filename) s =
  Done tt (advance (map (match_line filename) (keyword_tokens toks)) []
                   0
                   (List.length (name_tokens "async" toks))
                   (List.length (name_tokens "await" toks)) s).
Proof.
  revert s; induction toks as [|tok toks IH]; intros s.
  - simpl. now rewrite advance_nothing.
  - simpl for_each. unfold bind. rewrite report_token_spec, IH, advance_advance.
    unfold keyword_tokens, name_tokens.
    rewrite (filter_cons_app _ tok toks), map_app.
    rewrite (filter_cons_app (fun t => _ && String.eqb (tok_string t) "async") tok toks).
    rewrite (filter_cons_app (fun t => _ && String.eqb (tok_string t) "await") tok toks).
    now rewrite !length_app.
Qed.

Lemma name_tokens_In (kw : string) (toks : list TokenInfo) (tok : TokenInfo) :
  In tok (name_tokens kw toks) <->
  In tok toks /\ tok_type tok = NAME /\ tok_string tok = kw.
Proof.
  unfold name_tokens. rewrite filter_In, andb_true_iff, Nat.eqb_eq, String.eqb_eq.
  reflexivity.
Qed.

Lemma keyword_tokens_In (toks : list TokenInfo) (tok : TokenInfo) :
  In tok (keyword_tokens toks) <->
  In tok toks /\ tok_type tok = NAME /\
  (tok_string tok = "await" \/ tok_string tok = "async").
Proof.
  unfold keyword_tokens.
  rewrite filter_In, andb_true_iff, orb_true_iff, Nat.eqb_eq, !String.eqb_eq.
  reflexivity.
Qed.

Lemma keyword_tokens_length (toks : list TokenInfo) :
  List.length (keyword_tokens toks) =
  List.length (name_tokens "await" toks) + List.length (name_tokens "async" toks).
Proof.
  unfold keyword_tokens, name_tokens.
  induction toks as [|tok toks IH]; [reflexivity|]. simpl.
  destruct (Nat.eqb (tok_type tok) NAME); simpl; [|exact IH].
  destruct (String.eqb (tok_string tok) "await") eqn:Hw;
    destruct (String.eqb (tok_string tok) "async") eqn:Ha; simpl; try lia.
  apply String.eqb_eq in Hw, Ha. congruence.
Qed.

Lemma keyword_tokens_nil (toks : list TokenInfo) :
  keyword_tokens toks = [] ->
  name_tokens "await" toks = [] /\ name_tokens "async" toks = [].
Proof.
  intros H. pose proof (keyword_tokens_length toks) as L. rewrite H in L.
  simpl in L. split; apply length_zero_iff_nil; lia.
Qed.

(** A match line never reads as an error line: it starts with the
    keyword, an error line with [ERROR]. *)
Lemma match_line_not_error_line (toks : list TokenInfo) (tok : TokenInfo)
    (f g : string) (e : exn) :
  In tok (keyword_tokens toks) -> match_line f tok <> error_line g e.
Proof.
  intros H. apply keyword_tokens_In in H as (_ & _ & [Hs | Hs]);
    unfold match_line, error_line; rewrite Hs; discriminate.
Qed.


(* ================================================================== *)
(** ** One file *)

(** Lines 24-44 on a file, by what happens to it. *)
Lemma scan_path_spec (E : Env) (filename : string) (s : state) :
  scan_path E filename s =
  match file_result_of E filename with
  | Tokenized toks =>
      Done tt (advance (map (match_line filename) (keyword_tokens toks))
                       [filename] 0
                       (List.length (name_tokens "async" toks))
                       (List.length (name_tokens "await" toks)) s)
  | Failed e => Done tt (advance [error_line filename e] [filename] 1 0 0 s)
  | Aborts e => Uncaught e (advance [] [filename] 0 0 0 s)
  end.
Proof.
  unfold scan_path, file_result_of, caught.
  unfold bind at 1. unfold log_open, modify.
  unfold bind at 1.
  destruct (open_rb E filename) as [f|e]; simpl call.
  2:{ unfold raise. f_equal. state_eq. }
  unfold ret at 1. unfold bind at 1, try_except.
  unfold bind at 1.
  destruct (py_list (tokenize E f)) as [toks|e]; simpl call.
  - unfold ret. rewrite for_each_report_token. f_equal. state_eq.
  - unfold raise.
    destruct (existsb (isinstance e) [SyntaxError; UnicodeDecodeError]).
    + unfold bind, print, modify, incr_error, ret, error_line, print_text.
      simpl. f_equal. state_eq.
    + f_equal. state_eq.
Qed.

Lemma scan_path_done (E : Env) (filename : string) (s : state) :
  aborts E filename = false ->
  scan_path E filename s =
  Done tt (advance (lines_of E filename) [filename]
                   (errors_of E filename)
                   (names_of "async" E filename)
                   (names_of "await" E filename) s).
Proof.
  rewrite scan_path_spec.
  unfold aborts, lines_of, errors_of, failed, names_of.
  destruct (file_result_of E filename); [reflexivity | reflexivity | discriminate].
Qed.

Lemma scan_path_aborts (E : Env) (filename : string) (s : state) :
  aborts E filename = true ->
  exists e, file_result_of E filename = Aborts e /\
            scan_path E filename s = Uncaught e (advance [] [filename] 0 0 0 s).
Proof.
  rewrite scan_path_spec. unfold aborts.
  destruct (file_result_of E filename) as [toks|e|e]; try discriminate.
  intros _. now exists e.
Qed.

Lemma scan_file_scanned (E : Env) (root name : string) (s : state) :
  endswith name suffix = true ->
  scan_file E root name s = scan_path E (join root name) s.
Proof. unfold scan_file. now intros ->. Qed.

Lemma scan_file_skipped (E : Env) (root name : string) (s : state) :
  endswith name suffix = false ->
  scan_file E root name s = Done tt s.
Proof. unfold scan_file. now intros ->. Qed.

(** The lines of one file are match lines of [await] or [async] tokens, or
    one [ERROR] line. *)
Lemma lines_of_form (E : Env) (filename : string) :
  (exists toks,
     lines_of E filename =
       map (fun tok => (tok_string tok ++ TAB ++ filename ++ ": "
                        ++ str_pair (tok_start tok))%string) toks
     /\ Forall (fun tok => tok_string tok = "await" \/ tok_string tok = "async")
               toks)
  \/ (exists e, lines_of E filename
                = [("ERROR " ++ filename ++ " " ++ exn_str e)%string]).
Proof.
  unfold lines_of.
  destruct (file_result_of E filename) as [toks|e|e].
  - left. exists (keyword_tokens toks). split; [reflexivity|].
    apply Forall_forall. intros tok H. now apply keyword_tokens_In in H.
  - right. now exists e.
  - left. exists []. split; [reflexivity | constructor].
Qed.

Lemma file_result_of_ext (E1 E2 : Env) (filename : string) :
  (forall p, open_rb E1 p = open_rb E2 p) ->
  (forall c, tokenize E1 c = tokenize E2 c) ->
  file_result_of E1 filename = file_result_of E2 filename.
Proof.
  intros Ho Ht. unfold file_result_of. rewrite Ho.
  destruct (open_rb E2 filename); [now rewrite Ht | reflexivity].
Qed.


(* ================================================================== *)
(** ** All the files *)

(** The inner loop, over the names that pass the test of line 20. *)
Lemma for_each_scan_file (E : Env) (root : string) (files : list string) (s : state) :
  for_each files (scan_file E root) s =
  for_each (map (join root) (filter (fun name => endswith name suffix) files))
           (scan_path E) s.
Proof.
  revert s; induction files as [|name files IH]; intros s; [reflexivity|].
  simpl for_each at 1. unfold bind. simpl filter.
  unfold scan_file at 1.
  destruct (endswith name suffix); cbn [negb].
  - simpl map. simpl for_each. unfold bind.
    destruct (scan_path E (join root name) s); [apply IH | reflexivity].
  - unfold ret. apply IH.
Qed.

(** Both loops of lines 18-44 are one loop over [scanned walked]. *)
Lemma for_each_walked (E : Env) (walked : list Os.triple) (s : state) :
  for_each walked
    (fun '(root, dirs, files) => for_each files (scan_file E root)) s =
  for_each (scanned walked) (scan_path E) s.
Proof.
  revert s; induction walked as [|[[root dirs] files] walked IH]; intros s;
    [reflexivity|].
  simpl for_each at 1. unfold bind. simpl scanned.
  rewrite for_each_app, for_each_scan_file.
  destruct (for_each _ (scan_path E) s); [apply IH | reflexivity].
Qed.

Lemma total_cons (f : string -> nat) (x : string) (xs : list string) :
  total f (x :: xs) = f x + total f xs.
Proof. reflexivity. Qed.

Lemma total_app (f : string -> nat) (xs ys : list string) :
  total f (xs ++ ys) = total f xs + total f ys.
Proof. unfold total. now rewrite map_app, list_sum_app. Qed.

Lemma total_indicator (p : string -> bool) (files : list string) :
  total (fun f => if p f then 1 else 0) files = List.length (filter p files).
Proof.
  induction files as [|f files IH]; [reflexivity|].
  rewrite total_cons, IH. simpl. now destruct (p f).
Qed.

Lemma total_Permutation (f : string -> nat) (l l' : list string) :
  Permutation l l' -> total f l = total f l'.
Proof.
  intros H. unfold total. now apply list_sum_Permutation, Permutation_map.
Qed.

(** When no file aborts the loop, it ends normally, having printed every
    file's lines in order and added up every file's counts. *)
Lemma scan_all_done (E : Env) (files : list string) (s : state) :
  all_pass E files = true ->
  for_each files (scan_path E) s =
  Done tt (advance (flat_map (lines_of E) files) files
                   (total (errors_of E) files)
                   (total (names_of "async" E) files)
                   (total (names_of "await" E) files) s).
Proof.
  revert s; induction files as [|f files IH]; intros s Hall.
  - simpl. now rewrite advance_nothing.
  - simpl in Hall. apply andb_prop in Hall as [Hf Hall].
    apply negb_true_iff in Hf.
    simpl for_each. unfold bind. rewrite (scan_path_done _ _ _ Hf).
    rewrite (IH _ Hall), advance_advance. reflexivity.
Qed.

(** The loop ends normally only when no file aborts it. *)
Lemma scan_all_done_inv (E : Env) (files : list string) (s s' : state) :
  for_each files (scan_path E) s = Done tt s' -> all_pass E files = true.
Proof.
  revert s; induction files as [|f files IH]; intros s H; [reflexivity|].
  simpl. simpl for_each in H. unfold bind in H.
  destruct (aborts E f) eqn:Hf.
  - destruct (scan_path_aborts E f s Hf) as [e [_ He]].
    rewrite He in H. discriminate.
  - rewrite (scan_path_done _ _ _ Hf) in H. simpl. eapply IH, H.
Qed.

(** Up to the first file that aborts it, the loop does as above; that
    file is opened and nothing more happens. *)
Lemma scan_all_aborts (E : Env) (pre post : list string) (f : string) (s : state) :
  all_pass E pre = true -> aborts E f = true ->
  exists e, file_result_of E f = Aborts e /\
    for_each (pre ++ f :: post) (scan_path E) s =
    Uncaught e (advance (flat_map (lines_of E) pre) (pre ++ [f])
                        (total (errors_of E) pre)
                        (total (names_of "async" E) pre)
                        (total (names_of "await" E) pre) s).
Proof.
  intros Hpre Hf.
  destruct (scan_path_aborts E f
              (advance (flat_map (lines_of E) pre) pre
                       (total (errors_of E) pre)
                       (total (names_of "async" E) pre)
                       (total (names_of "await" E) pre) s) Hf) as [e [He Hs]].
  exists e. split; [exact He|].
  rewrite for_each_app, (scan_all_done _ _ _ Hpre).
  simpl for_each. unfold bind. rewrite Hs, advance_advance.
  f_equal. state_eq.
Qed.

(** Every list of files splits at its first aborting file, if it has one. *)
Lemma all_pass_split (E : Env) (files : list string) :
  all_pass E files = true \/
  exists pre f post,
    files = pre ++ f :: post /\ all_pass E pre = true /\ aborts E f = true.
Proof.
  induction files as [|f files IH]; [now left|].
  destruct (aborts E f) eqn:Hf.
  - right. exists [], f, files. now repeat split.
  - destruct IH as [IH | (pre & g & post & -> & Hpre & Hg)].
    + left. simpl. now rewrite Hf.
    + right. exists (f :: pre), g, post. repeat split; auto.
      simpl. now rewrite Hf.
Qed.

(** [all_pass] in words: every file can be opened, and its tokenization
    ends normally or with an exception that line 28 catches. *)
Lemma all_pass_spec (E : Env) (files : list string) :
  all_pass E files = true <->
  Forall (fun filename =>
            exists f, open_rb E filename = Returns f
                      /\ (raised (tokenize E f) = None
                          \/ exists e, raised (tokenize E f) = Some e
                                       /\ caught e = true))
         files.
Proof.
  unfold all_pass. rewrite forallb_forall, Forall_forall.
  split; intros H filename Hin; specialize (H filename Hin).
  - apply negb_true_iff in H. unfold aborts, file_result_of, py_list in H.
    destruct (open_rb E filename) as [f|e]; [|discriminate].
    exists f. split; [reflexivity|].
    destruct (raised (tokenize E f)) as [e|]; [|now left].
    right. exists e. split; [reflexivity|].
    destruct (caught e); [reflexivity | discriminate].
  - destruct H as (f & Hopen & Hend). apply negb_true_iff.
    unfold aborts, file_result_of, py_list. rewrite Hopen.
    destruct Hend as [-> | (e & -> & ->)]; reflexivity.
Qed.

Lemma all_pass_partition (E : Env) (files : list string) :
  all_pass E files = true ->
  List.length (filter (failed E) files) + List.length (filter (tokenized E) files)
  = List.length files.
Proof.
  induction files as [|f files IH]; [reflexivity|].
  simpl. intros H. apply andb_prop in H as [Hf H]. specialize (IH H).
  unfold aborts in Hf. unfold failed at 1, tokenized at 1.
  destruct (file_result_of E f); simpl in *; try discriminate; lia.
Qed.

Lemma all_pass_Permutation (E : Env) (l l' : list string) :
  Permutation l l' -> all_pass E l = true -> all_pass E l' = true.
Proof.
  unfold all_pass. rewrite !forallb_forall. intros H Hl x Hx.
  apply Hl. eapply Permutation_in; [symmetry; exact H | exact Hx].
Qed.

(** An exception of any other class leaves the loops: no later file is
    opened and nothing more is printed. *)
Lemma uncaught_failure_aborts
    (E : Env) (filename : string) (f : list Byte.byte) (e : exn)
    (rest : list string) (s : state) :
  open_rb E filename = Returns f ->
  raised (tokenize E f) = Some e ->
  caught e = false ->
  for_each (filename :: rest) (scan_path E) s =
  Uncaught e (mkState (stdout s) (opened s ++ [filename])
                      (c_error s) (c_async s) (c_await s)).
Proof.
  intros Hopen Hend Hc. simpl for_each. unfold bind.
  rewrite scan_path_spec. unfold file_result_of, py_list.
  rewrite Hopen, Hend, Hc. unfold advance.
  now rewrite app_nil_r, !Nat.add_0_r.
Qed.

Lemma for_each_scan_path_ext (E1 E2 : Env) (files : list string) (s : state) :
  (forall p, open_rb E1 p = open_rb E2 p) ->
  (forall c, tokenize E1 c = tokenize E2 c) ->
  for_each files (scan_path E1) s = for_each files (scan_path E2) s.
Proof.
  intros Ho Ht. revert s; induction files as [|f files IH]; intros s;
    [reflexivity|].
  simpl. unfold bind. rewrite !scan_path_spec, (file_result_of_ext E1 E2 f Ho Ht).
  destruct (file_result_of E2 f); auto.
Qed.


(* ================================================================== *)
(** ** The whole script *)

Lemma script_unfold (E : Env) (dir : string) (walked : list Os.triple) :
  script E dir walked init_state =
  match for_each (scanned walked) (scan_path E) (mkState (header dir) [] 0 0 0) with
  | Done _ s =>
      Done tt (mkState (stdout s ++ summary s) (opened s)
                       (c_error s) (c_async s) (c_await s))
  | Uncaught e s => Uncaught e s
  end.
Proof.
  unfold script.
  unfold bind at 1. unfold print at 1, modify at 1.
  unfold bind at 1. unfold print at 1, modify at 1.
  unfold bind at 1. unfold set_counters at 1, modify at 1.
  unfold bind at 1. rewrite for_each_walked.
  unfold init_state, print_text; simpl.
  change ["Directory:  " ++ dir; EmptyString]%string with (header dir).
  destruct (for_each (scanned walked) (scan_path E) _) as [[] s|e s];
    [|reflexivity].
  unfold bind, print, modify, get, print_text, summary; simpl.
  f_equal. f_equal. now rewrite <- !app_assoc.
Qed.

(** A run in which no scanned file aborts ends normally. *)
Lemma script_done (E : Env) (dir : string) (walked : list Os.triple) :
  all_pass E (scanned walked) = true ->
  script E dir walked init_state = Done tt (end_state E dir (scanned walked)).
Proof.
  intros H. rewrite script_unfold, (scan_all_done _ _ _ H). reflexivity.
Qed.

(** A run ends normally only if no scanned file aborts. *)
Lemma script_done_inv (E : Env) (dir : string) (walked : list Os.triple) (s : state) :
  script E dir walked init_state = Done tt s ->
  all_pass E (scanned walked) = true.
Proof.
  rewrite script_unfold.
  destruct (for_each _ _ _) as [[] s'|e s'] eqn:Hloop; [|discriminate].
  intros _. eapply scan_all_done_inv, Hloop.
Qed.

(** Otherwise it ends at the first file that aborts, with that file's
    exception, before the summary. *)
Lemma script_aborts (E : Env) (dir : string) (walked : list Os.triple)
    (pre post : list string) (f : string) :
  scanned walked = pre ++ f :: post ->
  all_pass E pre = true -> aborts E f = true ->
  exists e, file_result_of E f = Aborts e /\
    script E dir walked init_state =
    Uncaught e (advance [] [f] 0 0 0 (loops_state E dir pre)).
Proof.
  intros Hs Hpre Hf. rewrite script_unfold, Hs.
  destruct (scan_all_aborts E pre post f (mkState (header dir) [] 0 0 0) Hpre Hf)
    as [e [He Hrun]].
  exists e. split; [exact He|]. rewrite Hrun. f_equal.
  unfold loops_state. rewrite advance_advance. f_equal.
  - now rewrite app_nil_r.
  - lia.
  - lia.
  - lia.
Qed.

Lemma scanned_app (w1 w2 : list Os.triple) :
  scanned (w1 ++ w2) = scanned w1 ++ scanned w2.
Proof. unfold scanned. apply flat_map_app. Qed.

(** [scanned] keeps, of the enumerated names, those ending in the suffix. *)
Lemma scanned_enumerated (walked : list Os.triple) :
  scanned walked =
  map (fun '(root, name) => join root name)
      (filter (fun '(_, name) => endswith name suffix) (enumerated walked)).
Proof.
  induction walked as [|[[root dirs] files] walked IH]; [reflexivity|].
  simpl. rewrite filter_app, map_app, IH. f_equal.
  clear IH. induction files as [|name files IHf]; [reflexivity|].
  simpl. destruct (endswith name suffix); simpl; now rewrite IHf.
Qed.

Lemma scanned_Permutation (w w' : list Os.triple) :
  Permutation w w' -> Permutation (scanned w) (scanned w').
Proof. unfold scanned. apply Permutation_flat_map. Qed.

(** The files a run opens are the scanned ones, in order, up to and
    including the first that aborts it. *)
Lemma opened_prefix (E : Env) (dir : string) (walked : list Os.triple) :
  exists k, opened (final_state (script E dir walked init_state))
            = firstn k (scanned walked).
Proof.
  destruct (all_pass_split E (scanned walked))
    as [Hall | (pre & f & post & Hs & Hpre & Hf)].
  - exists (List.length (scanned walked)).
    rewrite (script_done _ _ _ Hall), firstn_all. reflexivity.
  - destruct (script_aborts E dir walked pre post f Hs Hpre Hf) as [e [_ ->]].
    exists (List.length (pre ++ [f])). rewrite Hs.
    change (pre ++ f :: post) with (pre ++ [f] ++ post).
    rewrite app_assoc, firstn_app_exact. reflexivity.
Qed.


(** A run depends on the environment only through the enumeration it is
    given and what [open] and [tokenize] give for the scanned files. *)
Lemma script_ext (E1 E2 : Env) (dir : string) (walked : list Os.triple) :
  (forall p, open_rb E1 p = open_rb E2 p) ->
  (forall c, tokenize E1 c = tokenize E2 c) ->
  script E1 dir walked init_state = script E2 dir walked init_state.
Proof.
  intros Ho Ht. rewrite !script_unfold.
  now rewrite (for_each_scan_path_ext E1 E2 _ _ Ho Ht).
Qed.

(** Runs over the same files in another order: the same counts and the
    same lines, in another order. *)
Lemma end_state_Permutation (E : Env) (dir : string) (l l' : list string) :
  Permutation l l' ->
  c_error (end_state E dir l) = c_error (end_state E dir l')
  /\ c_await (end_state E dir l) = c_await (end_state E dir l')
  /\ c_async (end_state E dir l) = c_async (end_state E dir l')
  /\ Permutation (stdout (end_state E dir l)) (stdout (end_state E dir l')).
Proof.
  intros H. unfold end_state, loops_state, advance, summary; simpl.
  rewrite (total_Permutation (errors_of E) _ _ H),
          (total_Permutation (names_of "await" E) _ _ H),
          (total_Permutation (names_of "async" E) _ _ H).
  repeat split.
  repeat apply Permutation_cons; try reflexivity.
  apply Permutation_app_tail.
  now apply Permutation_flat_map.
Qed.


(* ================================================================== *)
(** ** The walk *)

Lemma yield_from_each_some {A B} (f : A -> option (list B)) (xs : list A) :
  (forall x, In x xs -> exists l, f x = Some l) ->
  exists l, Os.yield_from_each f xs = Some l.
Proof.
  induction xs as [|x xs IH]; intros H; simpl.
  - now exists [].
  - destruct (H x (or_introl eq_refl)) as [here ->].
    destruct IH as [rest ->]; [intros y Hy; apply H; now right|].
    now exists (here ++ rest).
Qed.

Lemma yield_from_each_Forall {A B} (P : B -> Prop)
    (f : A -> option (list B)) (xs : list A) (l : list B) :
  Os.yield_from_each f xs = Some l ->
  (forall x l', In x xs -> f x = Some l' -> Forall P l') ->
  Forall P l.
Proof.
  revert l; induction xs as [|x xs IH]; intros l; simpl.
  - intros [= <-] _. constructor.
  - destruct (f x) as [here|] eqn:Hx; [|discriminate].
    destruct (Os.yield_from_each f xs) as [rest|]; [|discriminate].
    intros [= <-] H. apply Forall_app. split.
    + apply (H x); auto.
    + apply IH; [reflexivity|]. intros y l' Hy. apply H. now right.
Qed.

Lemma yield_from_each_mono {A B} (f g : A -> option (list B)) (xs : list A)
    (l : list B) :
  (forall x l', In x xs -> f x = Some l' -> g x = Some l') ->
  Os.yield_from_each f xs = Some l -> Os.yield_from_each g xs = Some l.
Proof.
  revert l; induction xs as [|x xs IH]; intros l H; simpl; [auto|].
  destruct (f x) as [here|] eqn:Hx; [|discriminate].
  rewrite (H x here (or_introl eq_refl) Hx).
  destruct (Os.yield_from_each f xs) as [rest|]; [|discriminate].
  rewrite (IH rest); auto. intros y l' Hy. apply H. now right.
Qed.

Lemma yield_from_each_pointwise {A}
    (f g : A -> option (list Os.triple)) (xs : list A) (l : list Os.triple) :
  (forall x lx, In x xs -> f x = Some lx ->
     exists lx', g x = Some lx' /\ Permutation (scanned lx) (scanned lx')) ->
  Os.yield_from_each f xs = Some l ->
  exists l', Os.yield_from_each g xs = Some l'
             /\ Permutation (scanned l) (scanned l').
Proof.
  revert l; induction xs as [|x xs IH]; intros l H; simpl.
  - intros [= <-]. now exists [].
  - destruct (f x) as [here|] eqn:Hx; [|discriminate].
    destruct (Os.yield_from_each f xs) as [rest|]; [|discriminate].
    intros [= <-].
    destruct (H x here (or_introl eq_refl) Hx) as (here' & -> & Hh).
    destruct (IH rest) as (rest' & -> & Hr); auto.
    { intros y ly Hy. apply H. now right. }
    exists (here' ++ rest'). split; [reflexivity|].
    rewrite !scanned_app. now apply Permutation_app.
Qed.

Lemma yield_from_each_Permutation {A}
    (g : A -> option (list Os.triple)) (xs ys : list A) :
  Permutation xs ys ->
  forall l, Os.yield_from_each g xs = Some l ->
  exists l', Os.yield_from_each g ys = Some l' /\ Permutation l l'.
Proof.
  induction 1 as [|x xs ys _ IH|x y xs|xs ys zs _ IH1 _ IH2]; intros l; simpl.
  - intros [= <-]. now exists [].
  - destruct (g x) as [here|]; [|discriminate].
    destruct (Os.yield_from_each g xs) as [rest|]; [|discriminate].
    intros [= <-]. destruct (IH rest eq_refl) as (rest' & -> & Hr).
    exists (here ++ rest'). split; [reflexivity|]. now apply Permutation_app_head.
  - destruct (g y) as [hy|]; [|discriminate].
    destruct (g x) as [hx|]; [|discriminate].
    destruct (Os.yield_from_each g xs) as [rest|]; [|discriminate].
    intros [= <-]. exists (hx ++ hy ++ rest). split; [reflexivity|].
    rewrite !app_assoc. apply Permutation_app_tail, Permutation_app_comm.
  - intros H. destruct (IH1 l H) as (l' & H' & P1).
    destruct (IH2 l' H') as (l'' & H'' & P2).
    exists l''. split; [exact H''|]. now transitivity l'.
Qed.

(** The yields of distinct elements, each without repetition and each in
    a region of its own, make a list without repetition. *)
Lemma yield_from_each_NoDup {A} (R : A -> string -> Prop)
    (f : A -> option (list Os.triple)) (xs : list A) :
  (forall x y r, In x xs -> In y xs -> R x r -> R y r -> x = y) ->
  (forall x lx, In x xs -> f x = Some lx ->
     NoDup (map root_of lx) /\ Forall (fun t => R x (root_of t)) lx) ->
  NoDup xs ->
  forall l, Os.yield_from_each f xs = Some l ->
    NoDup (map root_of l)
    /\ Forall (fun t => exists x, In x xs /\ R x (root_of t)) l.
Proof.
  induction xs as [|x xs IH]; intros Hsep Hf Hnd l; simpl.
  - intros [= <-]. split; constructor.
  - destruct (f x) as [here|] eqn:Hx; [|discriminate].
    destruct (Os.yield_from_each f xs) as [rest|] eqn:Hr; [|discriminate].
    intros [= <-]. inversion Hnd as [|? ? Hnx Hnd']; subst.
    destruct (Hf x here (or_introl eq_refl) Hx) as [Nh Rh].
    destruct (IH (fun a b r Ha Hb => Hsep a b r (or_intror Ha) (or_intror Hb))
                 (fun a la Ha => Hf a la (or_intror Ha)) Hnd' rest eq_refl)
      as [Nr Rr].
    split.
    + rewrite map_app. apply NoDup_app; [exact Nh | exact Nr |].
      intros r Hrh Hrr.
      apply in_map_iff in Hrh as (t1 & <- & H1).
      apply in_map_iff in Hrr as (t2 & E2 & H2).
      rewrite Forall_forall in Rh, Rr.
      destruct (Rr t2 H2) as (y & Hy & Ry). rewrite E2 in Ry.
      assert (x = y) as -> by (eapply Hsep; eauto; [now left | now right]).
      contradiction.
    + apply Forall_app. split.
      * eapply Forall_impl; [|exact Rh]. intros t Ht. exists x. split; [now left|auto].
      * eapply Forall_impl; [|exact Rr].
        intros t (y & Hy & Ry). exists y. split; [now right|auto].
Qed.

Lemma names_where_In (p : DirEntry -> bool) (es : list DirEntry) (name : string) :
  In name (Os.names_where p es) <->
  exists d, In d es /\ p d = true /\ entry_name d = name.
Proof.
  unfold Os.names_where. rewrite in_map_iff. split.
  - intros (d & Hn & Hd). apply filter_In in Hd as [Hd Hp]. now exists d.
  - intros (d & Hd & Hp & Hn). exists d. split; [exact Hn|].
    apply filter_In. now split.
Qed.

Lemma names_where_Permutation (p : DirEntry -> bool) (l l' : list DirEntry) :
  Permutation l l' -> Permutation (Os.names_where p l) (Os.names_where p l').
Proof.
  intros H. unfold Os.names_where. now apply Permutation_map, Permutation_filter.
Qed.

Lemma walk_S (E : Env) (followlinks : bool) (fuel : nat) (top : string) :
  Os.walk E followlinks (S fuel) top =
  match scandir E top with
  | None => Some []
  | Some entries =>
      match Os.yield_from_each
              (fun dirname =>
                 if followlinks || negb (islink E (join top dirname))
                 then Os.walk E followlinks fuel (join top dirname)
                 else Some [])
              (Os.names_where entry_is_dir entries) with
      | None => None
      | Some below =>
          Some ((top, Os.names_where entry_is_dir entries,
                 Os.names_where (fun e => negb (entry_is_dir e)) entries)
                :: below)
      end
  end.
Proof. reflexivity. Qed.

(** More fuel changes nothing of a walk that ended. *)
Lemma walk_more_fuel (E : Env) (followlinks : bool) (fuel : nat) :
  forall top walked,
    Os.walk E followlinks fuel top = Some walked ->
    Os.walk E followlinks (S fuel) top = Some walked.
Proof.
  induction fuel as [|fuel IH]; intros top walked; [discriminate|].
  rewrite (walk_S E followlinks (S fuel)), (walk_S E followlinks fuel).
  destruct (scandir E top) as [entries|]; [|auto].
  destruct (Os.yield_from_each _ _) as [below|] eqn:Hy; [|discriminate].
  intros [= <-].
  erewrite yield_from_each_mono; [reflexivity| |exact Hy].
  intros dirname l' _. cbv beta.
  destruct (followlinks || negb (islink E (join top dirname))); [|auto].
  apply IH.
Qed.

Lemma walk_enough_fuel (E : Env) (followlinks : bool) (fuel fuel' : nat)
    (top : string) (walked : list Os.triple) :
  fuel <= fuel' ->
  Os.walk E followlinks fuel top = Some walked ->
  Os.walk E followlinks fuel' top = Some walked.
Proof.
  induction 1 as [|m _ IH]; [auto|].
  intros H. now apply walk_more_fuel, IH.
Qed.

(** Every triple of a walk is the listing of a directory that could be
    read. *)
Lemma walk_yields_listings (E : Env) (followlinks : bool) (fuel : nat) :
  forall top walked,
    Os.walk E followlinks fuel top = Some walked ->
    Forall (fun '(root, dirs, files) =>
              exists entries,
                scandir E root = Some entries
                /\ dirs = Os.names_where entry_is_dir entries
                /\ files = Os.names_where (fun e => negb (entry_is_dir e)) entries)
           walked.
Proof.
  induction fuel as [|fuel IH]; intros top walked; [discriminate|].
  simpl. destruct (scandir E top) as [entries|] eqn:Hscan.
  2:{ intros [= <-]. constructor. }
  destruct (Os.yield_from_each _ _) as [below|] eqn:Hy; [|discriminate].
  intros [= <-]. constructor; [now exists entries|].
  eapply yield_from_each_Forall; [exact Hy|].
  intros dirname l' _. simpl.
  destruct (followlinks || negb (islink E (join top dirname))).
  - apply IH.
  - intros [= <-]. constructor.
Qed.

(** Without [followlinks], no directory below [top] is walked through a
    symbolic link. *)
Lemma walk_skips_links (E : Env) (fuel : nat) :
  forall top walked,
    Os.walk E false fuel top = Some walked ->
    Forall (fun '(root, _, _) => root = top \/ islink E root = false) walked.
Proof.
  induction fuel as [|fuel IH]; intros top walked; [discriminate|].
  simpl. destruct (scandir E top) as [entries|].
  2:{ intros [= <-]. constructor. }
  destruct (Os.yield_from_each _ _) as [below|] eqn:Hy; [|discriminate].
  intros [= <-]. constructor; [now left|].
  eapply yield_from_each_Forall; [exact Hy|].
  intros dirname l' _. simpl.
  destruct (islink E (join top dirname)) eqn:Hl; simpl.
  - intros [= <-]. constructor.
  - intros Hw. apply IH in Hw. eapply Forall_impl; [|exact Hw].
    intros [[root dirs] files] [-> | H]; now right.
Qed.

(** The same tree listed in another order is walked to the same files,
    in another order. *)
Lemma walk_same_tree (E1 E2 : Env) (fuel : nat) :
  same_tree E1 E2 ->
  forall top w1,
    Os.walk E1 false fuel top = Some w1 ->
    exists w2, Os.walk E2 false fuel top = Some w2
               /\ Permutation (scanned w1) (scanned w2).
Proof.
  intros (Hscan & Hlink & _ & _).
  induction fuel as [|fuel IH]; intros top w1; [discriminate|].
  rewrite !walk_S. specialize (Hscan top).
  destruct (scandir E1 top) as [l1|], (scandir E2 top) as [l2|];
    try contradiction.
  2:{ intros [= <-]. now exists []. }
  destruct (Os.yield_from_each _ (Os.names_where entry_is_dir l1))
    as [below1|] eqn:H1; [|discriminate].
  intros [= <-].
  assert (Hpt : forall x lx,
             In x (Os.names_where entry_is_dir l1) ->
             (if false || negb (islink E1 (join top x))
              then Os.walk E1 false fuel (join top x) else Some []) = Some lx ->
             exists lx',
               (if false || negb (islink E2 (join top x))
                then Os.walk E2 false fuel (join top x) else Some []) = Some lx'
               /\ Permutation (scanned lx) (scanned lx')).
  { intros x lx _. rewrite Hlink.
    destruct (false || negb (islink E2 (join top x))); [apply IH|].
    intros [= <-]. now exists []. }
  destruct (yield_from_each_pointwise _ _ _ _ Hpt H1) as (mid & Hmid & Pmid).
  destruct (yield_from_each_Permutation _ _ _
              (names_where_Permutation entry_is_dir _ _ Hscan) _ Hmid)
    as (below2 & -> & P2).
  eexists. split; [reflexivity|].
  simpl scanned. apply Permutation_app.
  - apply Permutation_map, Permutation_filter.
    now apply names_where_Permutation.
  - transitivity (scanned mid); [exact Pmid | now apply scanned_Permutation].
Qed.


(* ================================================================== *)
(** ** Each directory once *)

Lemma below_join (top name : string) :
  plain name = true -> below top name (join top name).
Proof.
  intros H. split; [exact H|]. exists EmptyString. split; [now left|].
  now rewrite append_empty_r, join_plain.
Qed.

Lemma below_below (top name name' r : string) :
  plain name = true -> below (join top name) name' r -> below top name r.
Proof.
  intros H (H' & s & _ & ->). split; [exact H|].
  exists (sep ++ name' ++ s)%string. split.
  { right. change (sep ++ name' ++ s)%string with (String "/" (name' ++ s)).
    now rewrite startswith_sep_cons. }
  rewrite (join_plain _ _ H), (base_join_plain _ _ H).
  now rewrite !append_assoc.
Qed.

Lemma below_not_top (top name r : string) : below top name r -> r <> top.
Proof.
  intros (H & s & _ & ->) Heq. apply (f_equal String.length) in Heq.
  rewrite !append_length in Heq. pose proof (base_length top).
  apply plain_not_empty in H. destruct name; [contradiction|]. simpl in Heq. lia.
Qed.

Lemma below_same_name (top x y r : string) :
  below top x r -> below top y r -> x = y.
Proof.
  intros (Hx & s1 & S1 & ->) (Hy & s2 & S2 & Heq).
  apply append_inj_l in Heq.
  unfold plain in Hx, Hy.
  apply andb_prop in Hx as [_ Hx]. apply andb_prop in Hy as [_ Hy].
  exact (plain_split x y s1 s2 Hx Hy S1 S2 Heq).
Qed.

Lemma dirs_plain (E : Env) (top : string) (entries : list DirEntry)
    (p : DirEntry -> bool) (name : string) :
  well_listed E -> scandir E top = Some entries ->
  In name (Os.names_where p entries) -> plain name = true.
Proof.
  intros Hwl Hscan Hin. destruct (Hwl _ _ Hscan) as [_ Hp].
  apply names_where_In in Hin as (d & Hd & _ & <-).
  rewrite Forall_forall in Hp. now apply Hp.
Qed.

(** Every directory walked is [top] or lies below one of its entries. *)
Lemma walk_roots_below (E : Env) (followlinks : bool) (fuel : nat) :
  well_listed E ->
  forall top walked,
    Os.walk E followlinks fuel top = Some walked ->
    Forall (fun t => root_of t = top \/ exists name, below top name (root_of t))
           walked.
Proof.
  intros Hwl. induction fuel as [|fuel IH]; intros top walked; [discriminate|].
  rewrite walk_S. destruct (scandir E top) as [entries|] eqn:Hscan.
  2:{ intros [= <-]. constructor. }
  destruct (Os.yield_from_each _ _) as [rest|] eqn:Hy; [|discriminate].
  intros [= <-]. constructor; [now left|].
  eapply yield_from_each_Forall; [exact Hy|].
  intros dirname l' Hin. cbv beta.
  pose proof (dirs_plain E top entries _ dirname Hwl Hscan Hin) as Hp.
  destruct (followlinks || negb (islink E (join top dirname))).
  2:{ intros [= <-]. constructor. }
  intros Hw. apply IH in Hw. eapply Forall_impl; [|exact Hw].
  intros t [-> | [name' Hb]]; right; exists dirname.
  - now apply below_join.
  - eapply below_below; eauto.
Qed.

(** No directory is walked twice. *)
Lemma walk_NoDup (E : Env) (followlinks : bool) (fuel : nat) :
  well_listed E ->
  forall top walked,
    Os.walk E followlinks fuel top = Some walked ->
    NoDup (map root_of walked).
Proof.
  intros Hwl. induction fuel as [|fuel IH]; intros top walked; [discriminate|].
  rewrite walk_S. destruct (scandir E top) as [entries|] eqn:Hscan.
  2:{ intros [= <-]. constructor. }
  destruct (Os.yield_from_each _ _) as [rest|] eqn:Hy; [|discriminate].
  intros [= <-].
  assert (Hrest : NoDup (map root_of rest)
                  /\ Forall (fun t => exists x,
                               In x (Os.names_where entry_is_dir entries)
                               /\ below top x (root_of t)) rest).
  { eapply (yield_from_each_NoDup (below top)); [| | |exact Hy].
    - intros x y r _ _. apply below_same_name.
    - intros dirname lx Hin. cbv beta.
      pose proof (dirs_plain E top entries _ dirname Hwl Hscan Hin) as Hp.
      destruct (followlinks || negb (islink E (join top dirname))).
      2:{ intros [= <-]. split; constructor. }
      intros Hw. split; [eapply IH, Hw|].
      apply (walk_roots_below E followlinks fuel Hwl) in Hw.
      eapply Forall_impl; [|exact Hw].
      intros t [-> | [name' Hb]].
      + now apply below_join.
      + eapply below_below; eauto.
    - unfold Os.names_where. apply NoDup_keys_filter.
      now destruct (Hwl _ _ Hscan). }
  destruct Hrest as [Hnd Hbelow].
  simpl. constructor; [|exact Hnd].
  intros Hin. apply in_map_iff in Hin as (t & Ht & Hin).
  rewrite Forall_forall in Hbelow.
  destruct (Hbelow t Hin) as (x & _ & Hb).
  now apply below_not_top in Hb.
Qed.


(* ================================================================== *)
(** ** The sample tree *)

Lemma names_root_join (top name : string) :
  Sample.names_root top = true -> startswith name sep = false ->
  join top name = (top ++ "/" ++ name)%string.
Proof.
  unfold Sample.names_root, join. intros Ht ->.
  apply orb_true_iff in Ht as [Ht | Ht].
  - apply String.eqb_eq in Ht. now subst.
  - assert (String.eqb top EmptyString = false) as ->.
    { destruct top; [discriminate | reflexivity]. }
    rewrite (endswith_excludes top "/loop" sep); [reflexivity| | | |exact Ht];
      discriminate.
Qed.

Lemma names_root_scandir (top : string) :
  Sample.names_root top = true ->
  Sample.tree_scandir top =
  Some [ Sample.file_entry "a.py"; Sample.file_entry "d.txt";
         Sample.dir_entry "sub"; Sample.file_entry "b.py";
         Sample.dir_entry "loop"; Sample.dir_entry "locked";
         Sample.file_entry "c.py" ].
Proof.
  unfold Sample.names_root, Sample.tree_scandir. intros Ht. rewrite Ht.
  apply orb_true_iff in Ht as [Ht | Ht].
  - apply String.eqb_eq in Ht. now subst.
  - rewrite (endswith_excludes top "/loop" "/sub"); try discriminate; auto.
    rewrite (endswith_excludes top "/loop" "/locked"); try discriminate; auto.
Qed.

Lemma tree_scandir_cases (top : string) (entries : list DirEntry) :
  Sample.tree_scandir top = Some entries ->
  (endswith top "/sub" = true
   /\ entries = [Sample.file_entry "e.py"; Sample.file_entry "x.PY"])
  \/ (endswith top "/sub" = false /\ endswith top "/locked" = false
      /\ Sample.names_root top = true).
Proof.
  unfold Sample.tree_scandir, Sample.names_root.
  destruct (endswith top "/sub"); [intros [= <-]; now left|].
  destruct (endswith top "/locked"); [discriminate|].
  destruct (String.eqb top "/r" || endswith top "/loop"); [|discriminate].
  intros _. now right.
Qed.

(** The real directories of the sample tree go one level down. *)
Lemma tree_is_finite (top : string) (entries : list DirEntry) (d : DirEntry) :
  scandir Sample.tree top = Some entries -> In d entries ->
  entry_is_dir d = true ->
  islink Sample.tree (join top (entry_name d)) = false ->
  Sample.tree_rank (join top (entry_name d)) < Sample.tree_rank top.
Proof.
  simpl scandir. simpl islink. intros Hscan Hd Hdir Hlink.
  destruct (tree_scandir_cases _ _ Hscan) as [[_ ->] | (Hsub & Hlocked & Hroot)].
  { destruct Hd as [<- | [<- | []]]; discriminate. }
  rewrite (names_root_scandir _ Hroot) in Hscan. injection Hscan as <-.
  unfold Sample.tree_rank at 2. rewrite Hsub, Hlocked. simpl.
  unfold Sample.tree_rank, Sample.tree_islink in *.
  simpl in Hd.
  destruct Hd as [<-|[<-|[<-|[<-|[<-|[<-|[<-|[]]]]]]]]; try discriminate;
    simpl entry_name in *.
  - rewrite (names_root_join top "sub" Hroot eq_refl).
    change (top ++ "/" ++ "sub")%string with (top ++ "/sub")%string.
    rewrite endswith_append. simpl. lia.
  - rewrite (names_root_join top "loop" Hroot eq_refl) in Hlink.
    change (top ++ "/" ++ "loop")%string with (top ++ "/loop")%string in Hlink.
    rewrite endswith_append in Hlink. discriminate.
  - rewrite (names_root_join top "locked" Hroot eq_refl).
    change (top ++ "/" ++ "locked")%string with (top ++ "/locked")%string.
    rewrite endswith_append, orb_true_r. lia.
Qed.

Lemma tree_well_listed : well_listed Sample.tree.
Proof.
  intros top entries Hscan. simpl in Hscan.
  destruct (tree_scandir_cases _ _ Hscan) as [[_ ->] | (_ & _ & Hroot)].
  - split; [|repeat constructor].
    repeat constructor; simpl; intuition discriminate.
  - rewrite (names_root_scandir _ Hroot) in Hscan. injection Hscan as <-.
    split; [|repeat constructor].
    repeat constructor; simpl; intuition discriminate.
Qed.

(** With [followlinks] the walk of the sample tree would never end:
    whatever the fuel, it runs out on the way round the link. *)
Lemma following_links_never_ends (fuel : nat) :
  forall top, Sample.names_root top = true -> Os.walk Sample.tree true fuel top = None.
Proof.
  induction fuel as [|fuel IH]; intros top Hroot; [reflexivity|].
  rewrite walk_S. simpl scandir. rewrite (names_root_scandir _ Hroot).
  unfold Os.names_where. simpl filter. simpl map.
  simpl Os.yield_from_each.
  destruct (Os.walk Sample.tree true fuel (join top "sub")); [|reflexivity].
  rewrite (IH (join top "loop")); [reflexivity|].
  rewrite (names_root_join top "loop" Hroot eq_refl).
  unfold Sample.names_root. apply orb_true_iff. right.
  change (top ++ "/" ++ "loop")%string with (top ++ "/loop")%string.
  apply endswith_append.
Qed.

Lemma same_tree_reversed : same_tree Sample.tree Sample.tree_reversed.
Proof.
  repeat split. intros p. simpl.
  destruct (Sample.tree_scandir p); simpl; [apply Permutation_rev | exact I].
Qed.

(* ================================================================== *)
(** ** Further lemmas *)

Lemma startswith_append (p s : string) : startswith (p ++ s) p = true.
Proof.
  unfold startswith. induction p as [|c p IH]; simpl.
  - now destruct s.
  - destruct (ascii_dec c c) as [_|Hc]; [exact IH | contradiction].
Qed.

Lemma count_lines_app (p : string -> bool) (l1 l2 : list string) :
  count_lines p (l1 ++ l2) = count_lines p l1 + count_lines p l2.
Proof. unfold count_lines. now rewrite filter_app, length_app. Qed.

Lemma match_line_await (f : string) (tok : TokenInfo) :
  tok_string tok = "await" ->
  is_await_line (match_line f tok) = true
  /\ is_async_line (match_line f tok) = false
  /\ is_error_line (match_line f tok) = false.
Proof.
  intros H. unfold match_line. rewrite H. repeat split.
  unfold is_await_line.
  change ("await" ++ TAB ++ f ++ ": " ++ str_pair (tok_start tok))%string
    with (("await" ++ TAB) ++ (f ++ ": " ++ str_pair (tok_start tok)))%string.
  apply startswith_append.
Qed.

Lemma match_line_async (f : string) (tok : TokenInfo) :
  tok_string tok = "async" ->
  is_await_line (match_line f tok) = false
  /\ is_async_line (match_line f tok) = true
  /\ is_error_line (match_line f tok) = false.
Proof.
  intros H. unfold match_line. rewrite H. repeat split.
  unfold is_async_line.
  change ("async" ++ TAB ++ f ++ ": " ++ str_pair (tok_start tok))%string
    with (("async" ++ TAB) ++ (f ++ ": " ++ str_pair (tok_start tok)))%string.
  apply startswith_append.
Qed.

Lemma error_line_kind (f : string) (e : exn) :
  is_await_line (error_line f e) = false
  /\ is_async_line (error_line f e) = false
  /\ is_error_line (error_line f e) = true.
Proof.
  repeat split. unfold is_error_line, error_line.
  change ("ERROR " ++ f ++ " " ++ exn_str e)%string
    with ("ERROR " ++ (f ++ " " ++ exn_str e))%string.
  apply startswith_append.
Qed.

(** Among the match lines of a token list, as many start with a keyword
    as there are NAME tokens of that spelling; none reads as an error. *)
Lemma count_match_lines (f : string) (toks : list TokenInfo) :
  count_lines is_await_line (map (match_line f) (keyword_tokens toks))
    = List.length (name_tokens "await" toks)
  /\ count_lines is_async_line (map (match_line f) (keyword_tokens toks))
    = List.length (name_tokens "async" toks)
  /\ count_lines is_error_line (map (match_line f) (keyword_tokens toks)) = 0.
Proof.
  unfold count_lines, keyword_tokens, name_tokens.
  induction toks as [|tok toks (IHw & IHa & IHe)]; [repeat split|].
  simpl filter. destruct (Nat.eqb (tok_type tok) NAME); simpl andb;
    [|repeat split; assumption].
  destruct (String.eqb (tok_string tok) "await") eqn:Hw;
    destruct (String.eqb (tok_string tok) "async") eqn:Ha; simpl orb.
  - apply String.eqb_eq in Hw, Ha. congruence.
  - apply String.eqb_eq in Hw.
    destruct (match_line_await f tok Hw) as (Lw & La & Le).
    cbn [map filter]. rewrite Lw, La, Le. cbn [List.length].
    repeat split; congruence.
  - apply String.eqb_eq in Ha.
    destruct (match_line_async f tok Ha) as (Lw & La & Le).
    cbn [map filter]. rewrite Lw, La, Le. cbn [List.length].
    repeat split; congruence.
  - repeat split; assumption.
Qed.

(** The lines of one file, counted by kind, are what the file adds to
    the three counters. *)
Lemma count_lines_of (E : Env) (f : string) :
  count_lines is_await_line (lines_of E f) = names_of "await" E f
  /\ count_lines is_async_line (lines_of E f) = names_of "async" E f
  /\ count_lines is_error_line (lines_of E f) = errors_of E f.
Proof.
  unfold lines_of, names_of, errors_of, failed.
  destruct (file_result_of E f) as [toks|e|e].
  - apply count_match_lines.
  - unfold count_lines. cbn [filter].
    destruct (error_line_kind f e) as (-> & -> & ->). repeat split.
  - repeat split.
Qed.

Lemma count_lines_flat_map (E : Env) (files : list string) :
  count_lines is_await_line (flat_map (lines_of E) files)
    = total (names_of "await" E) files
  /\ count_lines is_async_line (flat_map (lines_of E) files)
    = total (names_of "async" E) files
  /\ count_lines is_error_line (flat_map (lines_of E) files)
    = total (errors_of E) files.
Proof.
  induction files as [|f files (IHw & IHa & IHe)]; [repeat split|].
  simpl flat_map. rewrite !count_lines_app, !total_cons, IHw, IHa, IHe.
  destruct (count_lines_of E f) as (-> & -> & ->). repeat split.
Qed.

(** What the loop over file names does to a state, whether it ends
    normally or not: the files up to the first that aborts it give their
    lines and counts; the files opened are those and the aborting one. *)
Lemma scan_all_effect (E : Env) (files : list string) (s : state) :
  exists pre post fs,
    files = pre ++ post
    /\ final_state (for_each files (scan_path E) s)
       = advance (flat_map (lines_of E) pre) fs
                 (total (errors_of E) pre)
                 (total (names_of "async" E) pre)
                 (total (names_of "await" E) pre) s.
Proof.
  destruct (all_pass_split E files) as [Hall | (pre & f & post & -> & Hpre & Hf)].
  - exists files, [], files. split; [now rewrite app_nil_r|].
    now rewrite (scan_all_done _ _ _ Hall).
  - destruct (scan_all_aborts E pre post f s Hpre Hf) as (e & _ & ->).
    exists pre, (f :: post), (pre ++ [f]). split; reflexivity.
Qed.

Lemma count_lines_header (dir : string) :
  count_lines is_await_line (header dir) = 0
  /\ count_lines is_async_line (header dir) = 0
  /\ count_lines is_error_line (header dir) = 0.
Proof. repeat split. Qed.

Lemma count_lines_summary (s : state) :
  count_lines is_await_line (summary s) = 0
  /\ count_lines is_async_line (summary s) = 0
  /\ count_lines is_error_line (summary s) = 0.
Proof. repeat split. Qed.

Lemma all_pass_app (E : Env) (l1 l2 : list string) :
  all_pass E (l1 ++ l2) = all_pass E l1 && all_pass E l2.
Proof. unfold all_pass. apply forallb_app. Qed.

Lemma In_firstn {A} (k : nat) (xs : list A) (x : A) :
  In x (firstn k xs) -> In x xs.
Proof.
  intros H. rewrite <- (firstn_skipn k xs). apply in_or_app. now left.
Qed.

Lemma In_scanned (walked : list Os.triple) (filename : string) :
  In filename (scanned walked) <->
  exists root dirs files name,
    In (root, dirs, files) walked /\ In name files
    /\ endswith name suffix = true /\ filename = join root name.
Proof.
  unfold scanned. rewrite in_flat_map. split.
  - intros ([[root dirs] files] & Ht & Hin).
    apply in_map_iff in Hin as (name & <- & Hin).
    apply filter_In in Hin as [Hin Hpy].
    now exists root, dirs, files, name.
  - intros (root & dirs & files & name & Ht & Hin & Hpy & ->).
    exists (root, dirs, files). split; [exact Ht|].
    apply in_map_iff. exists name. split; [reflexivity|].
    apply filter_In. now split.
Qed.

Lemma append_same_tail (a b t : string) :
  (a ++ t = b ++ t)%string -> a = b.
Proof.
  revert b; induction a as [|x a IH]; intros [|y b] H; simpl in H.
  - reflexivity.
  - apply (f_equal String.length) in H. simpl in H.
    rewrite append_length in H. lia.
  - apply (f_equal String.length) in H. simpl in H.
    rewrite append_length in H. lia.
  - injection H as -> H. f_equal. now apply IH.
Qed.

(** Two ways of cutting one string: one cut lies before the other. *)
Lemma append_two_cuts (a1 n1 a2 n2 : string) :
  (a1 ++ n1 = a2 ++ n2)%string ->
  (exists x, a2 = (a1 ++ x)%string /\ n1 = (x ++ n2)%string)
  \/ (exists x, a1 = (a2 ++ x)%string /\ n2 = (x ++ n1)%string).
Proof.
  revert a2; induction a1 as [|c a1 IH]; intros a2 H.
  - left. exists a2. now split.
  - destruct a2 as [|d a2].
    + right. exists (String c a1). now split.
    + simpl in H. injection H as -> H.
      destruct (IH a2 H) as [(x & -> & ->) | (x & -> & ->)];
        [left | right]; exists x; now split.
Qed.

Lemma no_sep_append (a b : string) :
  no_sep (a ++ b) = no_sep a && no_sep b.
Proof.
  induction a as [|c a IH]; simpl; [reflexivity|].
  now rewrite IH, andb_assoc.
Qed.

Lemma no_sep_last_char (s : string) :
  no_sep s = true -> last_char s <> Some "/"%char.
Proof.
  induction s as [|c s IH]; [discriminate|].
  simpl no_sep. intros H. apply andb_prop in H as [Hc Hs].
  cbn [last_char]. destruct s as [|d s].
  - intros [= ->]. discriminate.
  - now apply IH.
Qed.

(** The base of a path is empty or ends with the separator. *)
Lemma base_shape (top : string) :
  base top = EmptyString \/ endswith (base top) sep = true.
Proof.
  unfold base.
  destruct (String.eqb top EmptyString) eqn:He; simpl.
  - left. now apply String.eqb_eq.
  - destruct (endswith top sep) eqn:Hs; [now right|].
    right. apply endswith_append.
Qed.

(** A string that is empty or ends with the separator, followed by a
    name without separator: the string is cut in one way only. *)
Lemma directory_and_name (a1 n1 a2 n2 : string) :
  (a1 = EmptyString \/ endswith a1 sep = true) ->
  (a2 = EmptyString \/ endswith a2 sep = true) ->
  no_sep n1 = true -> no_sep n2 = true ->
  (a1 ++ n1 = a2 ++ n2)%string -> a1 = a2 /\ n1 = n2.
Proof.
  assert (Hcut : forall a x n, (a ++ x = EmptyString \/ endswith (a ++ x) sep = true)%string ->
                               no_sep (x ++ n) = true -> x = EmptyString).
  { intros a x n Ha Hn. destruct x as [|c x]; [reflexivity|]. exfalso.
    rewrite no_sep_append in Hn. apply andb_prop in Hn as [Hx _].
    destruct Ha as [Ha | Ha].
    - apply (f_equal String.length) in Ha. rewrite append_length in Ha.
      simpl in Ha. lia.
    - apply endswith_last_char in Ha; [|discriminate].
      rewrite last_char_append in Ha by discriminate.
      now apply no_sep_last_char in Hx. }
  intros H1 H2 Hn1 Hn2 Heq.
  destruct (append_two_cuts _ _ _ _ Heq) as [(x & -> & ->) | (x & -> & ->)].
  - rewrite (Hcut a1 x n2 H2 Hn1). now rewrite append_empty_r.
  - rewrite (Hcut a2 x n1 H1 Hn2). now rewrite append_empty_r.
Qed.

(** Below [top], every directory walked has its own name and a separator
    as base. *)
Lemma walk_roots_base (E : Env) (followlinks : bool) (fuel : nat) :
  well_listed E ->
  forall top walked,
    Os.walk E followlinks fuel top = Some walked ->
    Forall (fun t => root_of t = top
                     \/ base (root_of t) = (root_of t ++ sep)%string) walked.
Proof.
  intros Hwl. induction fuel as [|fuel IH]; intros top walked; [discriminate|].
  rewrite walk_S. destruct (scandir E top) as [entries|] eqn:Hscan.
  2:{ intros [= <-]. constructor. }
  destruct (Os.yield_from_each _ _) as [rest|] eqn:Hy; [|discriminate].
  intros [= <-]. constructor; [now left|].
  eapply yield_from_each_Forall; [exact Hy|].
  intros dirname l' Hin. cbv beta.
  pose proof (dirs_plain E top entries _ dirname Hwl Hscan Hin) as Hp.
  destruct (followlinks || negb (islink E (join top dirname))).
  2:{ intros [= <-]. constructor. }
  intros Hw. apply IH in Hw. eapply Forall_impl; [|exact Hw].
  intros t [-> | Hb]; right; [|exact Hb].
  rewrite (join_plain _ _ Hp), (base_join_plain _ _ Hp).
  now rewrite append_assoc.
Qed.

(** Distinct directories of a walk have distinct bases. *)
Lemma walk_bases_differ (E : Env) (followlinks : bool) (fuel : nat)
    (top : string) (walked : list Os.triple) (t1 t2 : Os.triple) :
  well_listed E ->
  Os.walk E followlinks fuel top = Some walked ->
  In t1 walked -> In t2 walked ->
  base (root_of t1) = base (root_of t2) -> root_of t1 = root_of t2.
Proof.
  intros Hwl Hw H1 H2 Hb.
  pose proof (walk_roots_base E followlinks fuel Hwl top walked Hw) as HB.
  pose proof (walk_roots_below E followlinks fuel Hwl top walked Hw) as HL.
  rewrite Forall_forall in HB, HL.
  assert (Hno : forall t, In t walked ->
                  base (root_of t) = (root_of t ++ sep)%string ->
                  root_of t <> top -> base top <> base (root_of t)).
  { intros t Ht Hbt Hne Heq.
    destruct (HL t Ht) as [Htop | (name & Hpl & s & _ & Hr)]; [contradiction|].
    rewrite Hbt in Heq. apply (f_equal String.length) in Heq.
    rewrite Hr, !append_length in Heq.
    apply plain_not_empty in Hpl. destruct name; [contradiction|].
    simpl in Heq. lia. }
  destruct (string_dec (root_of t1) top) as [E1|N1],
           (string_dec (root_of t2) top) as [E2|N2].
  - congruence.
  - destruct (HB t2 H2) as [|B2]; [contradiction|].
    exfalso. apply (Hno t2 H2 B2 N2). now rewrite <- E1.
  - destruct (HB t1 H1) as [|B1]; [contradiction|].
    exfalso. apply (Hno t1 H1 B1 N1). now rewrite <- E2.
  - destruct (HB t1 H1) as [|B1]; [contradiction|].
    destruct (HB t2 H2) as [|B2]; [contradiction|].
    rewrite B1, B2 in Hb. now apply append_same_tail in Hb.
Qed.

Lemma NoDup_map_on {A B} (f : A -> B) (xs : list A) :
  (forall x y, In x xs -> In y xs -> f x = f y -> x = y) ->
  NoDup xs -> NoDup (map f xs).
Proof.
  induction xs as [|x xs IH]; intros Hinj Hnd; simpl; [constructor|].
  inversion Hnd as [|? ? Hx Hxs]; subst. constructor.
  - intros Hin. apply in_map_iff in Hin as (y & Hy & Hin).
    assert (y = x) by (apply Hinj; [now right | now left | exact Hy]).
    now subst.
  - apply IH; [|exact Hxs]. intros a b Ha Hb. apply Hinj; now right.
Qed.

Lemma NoDup_firstn {A} (k : nat) (xs : list A) :
  NoDup xs -> NoDup (firstn k xs).
Proof.
  intros H. rewrite <- (firstn_skipn k xs) in H.
  now apply NoDup_app_remove_r in H.
Qed.

(** In a walk of well listed directories, no file name is scanned
    twice. *)
Lemma scanned_NoDup (E : Env) (followlinks : bool) (fuel : nat)
    (top : string) (walked : list Os.triple) :
  well_listed E ->
  Os.walk E followlinks fuel top = Some walked ->
  NoDup (scanned walked).
Proof.
  intros Hwl Hw.
  pose proof (walk_NoDup E followlinks fuel Hwl top walked Hw) as Hroots.
  pose proof (walk_yields_listings E followlinks fuel top walked Hw) as Hl.
  assert (Hdiff : forall t1 t2, In t1 walked -> In t2 walked ->
                    base (root_of t1) = base (root_of t2) ->
                    root_of t1 = root_of t2).
  { intros t1 t2. now apply (walk_bases_differ E followlinks fuel top walked). }
  rewrite Forall_forall in Hl.
  assert (Hpart : forall part,
            (forall t, In t part -> In t walked) ->
            NoDup (map root_of part) -> NoDup (scanned part)).
  2:{ apply Hpart; auto. }
  induction part as [|[[root dirs] files] part IH]; intros Hsub Hnd;
    [constructor|].
  simpl scanned. inversion Hnd as [|? ? Hroot Hrest]; subst.
  assert (Hin : In (root, dirs, files) walked) by (apply Hsub; now left).
  destruct (Hl _ Hin) as (entries & Hscan & _ & Hfiles).
  destruct (Hwl _ _ Hscan) as [Hnames Hplain].
  rewrite Forall_forall in Hplain.
  assert (Hfp : forall name, In name files -> plain name = true).
  { intros name Hn. rewrite Hfiles in Hn.
    apply names_where_In in Hn as (d & Hd & _ & <-). auto. }
  apply NoDup_app.
  - apply NoDup_map_on.
    + intros x y Hx Hy Heq. apply filter_In in Hx as [Hx _], Hy as [Hy _].
      rewrite (join_plain _ _ (Hfp x Hx)), (join_plain _ _ (Hfp y Hy)) in Heq.
      now apply append_inj_l in Heq.
    + apply NoDup_filter. rewrite Hfiles. unfold Os.names_where.
      now apply NoDup_keys_filter.
  - apply IH; [|exact Hrest]. intros t Ht. apply Hsub. now right.
  - intros p Hp1 Hp2.
    apply in_map_iff in Hp1 as (n1 & <- & Hn1). apply filter_In in Hn1 as [Hn1 _].
    apply In_scanned in Hp2 as (root2 & dirs2 & files2 & n2 & Ht2 & Hn2 & _ & Heq).
    assert (Hin2 : In (root2, dirs2, files2) walked) by (apply Hsub; now right).
    destruct (Hl _ Hin2) as (entries2 & Hscan2 & _ & Hfiles2).
    assert (Hp2 : plain n2 = true).
    { rewrite Hfiles2 in Hn2. apply names_where_In in Hn2 as (d & Hd & _ & <-).
      destruct (Hwl _ _ Hscan2) as [_ Hpl]. rewrite Forall_forall in Hpl. auto. }
    pose proof (Hfp n1 Hn1) as Hp1.
    rewrite (join_plain _ _ Hp1), (join_plain _ _ Hp2) in Heq.
    unfold plain in Hp1, Hp2.
    apply andb_prop in Hp1 as [_ Hs1]. apply andb_prop in Hp2 as [_ Hs2].
    destruct (directory_and_name _ _ _ _ (base_shape root) (base_shape root2)
                Hs1 Hs2 Heq) as [Hbase _].
    apply Hroot. apply in_map_iff. exists (root2, dirs2, files2).
    split; [|exact Ht2].
    symmetry. now apply (Hdiff (root, dirs, files) (root2, dirs2, files2)).
Qed.

Lemma yield_from_each_In {A B} (f : A -> option (list B)) (xs : list A)
    (l : list B) (b : B) :
  Os.yield_from_each f xs = Some l -> In b l ->
  exists x lx, In x xs /\ f x = Some lx /\ In b lx.
Proof.
  revert l; induction xs as [|x xs IH]; intros l; simpl.
  - intros [= <-] [].
  - destruct (f x) as [here|] eqn:Hx; [|discriminate].
    destruct (Os.yield_from_each f xs) as [rest|]; [|discriminate].
    intros [= <-] Hin. apply in_app_or in Hin as [Hin | Hin].
    + exists x, here. auto.
    + destruct (IH rest eq_refl Hin) as (y & ly & Hy & Hfy & Hb).
      exists y, ly. auto.
Qed.

Lemma yield_from_each_incl {A B} (f : A -> option (list B)) (xs : list A)
    (l : list B) (x : A) :
  Os.yield_from_each f xs = Some l -> In x xs ->
  exists lx, f x = Some lx /\ incl lx l.
Proof.
  revert l; induction xs as [|y xs IH]; intros l; simpl; [intros _ []|].
  destruct (f y) as [here|] eqn:Hy; [|discriminate].
  destruct (Os.yield_from_each f xs) as [rest|]; [|discriminate].
  intros [= <-] [-> | Hin].
  - exists here. split; [exact Hy|]. now apply incl_appl, incl_refl.
  - destruct (IH rest eq_refl Hin) as (lx & Hx & Hincl).
    exists lx. split; [exact Hx|]. now apply incl_appr.
Qed.

(** A walk that ended has a triple for every listed directory that is an
    entry, and no link, of a directory it has a triple for. *)
Lemma walk_closed (E : Env) (fuel : nat) :
  forall top walked,
    Os.walk E false fuel top = Some walked ->
    forall root dirs files name entries,
      In (root, dirs, files) walked -> In name dirs ->
      islink E (join root name) = false ->
      scandir E (join root name) = Some entries ->
      In (join root name, Os.names_where entry_is_dir entries,
          Os.names_where (fun e => negb (entry_is_dir e)) entries) walked.
Proof.
  induction fuel as [|fuel IH]; intros top walked; [discriminate|].
  rewrite walk_S. destruct (scandir E top) as [entries0|].
  2:{ intros [= <-] ? ? ? ? ? []. }
  destruct (Os.yield_from_each _ _) as [rest|] eqn:Hy; [|discriminate].
  intros [= <-] root dirs files name entries [[= <- <- <-] | Hin] Hname Hlink Hscan.
  - destruct (yield_from_each_incl _ _ _ name Hy Hname) as (lx & Hx & Hincl).
    cbv beta in Hx. rewrite Hlink in Hx. simpl in Hx.
    right. apply Hincl.
    destruct fuel as [|fuel']; [discriminate|].
    rewrite walk_S, Hscan in Hx.
    destruct (Os.yield_from_each _ _) in Hx; [|discriminate].
    injection Hx as <-. now left.
  - destruct (yield_from_each_In _ _ _ _ Hy Hin) as (x & lx & Hx & Hfx & Hb).
    destruct (yield_from_each_incl _ _ _ x Hy Hx) as (lx' & Hfx' & Hincl).
    rewrite Hfx in Hfx'. injection Hfx' as <-.
    cbv beta in Hfx.
    destruct (false || negb (islink E (join top x))).
    2:{ injection Hfx as <-. destruct Hb. }
    right. apply Hincl. eapply IH; eauto.
Qed.

(** A walk that ended has a triple for every reachable directory that
    could be listed. *)
Lemma walk_complete (E : Env) (fuel : nat) (dir : string)
    (walked : list Os.triple) (root : string) :
  Os.walk E false fuel dir = Some walked ->
  reachable E dir root ->
  forall entries,
    scandir E root = Some entries ->
    In (root, Os.names_where entry_is_dir entries,
        Os.names_where (fun e => negb (entry_is_dir e)) entries) walked.
Proof.
  intros Hw. induction 1 as [|parent entries_p d _ IH Hscan_p Hd Hdir Hlink];
    intros entries Hscan.
  - destruct fuel as [|fuel]; [discriminate|].
    rewrite walk_S, Hscan in Hw.
    destruct (Os.yield_from_each _ _) in Hw; [|discriminate].
    injection Hw as <-. now left.
  - eapply (walk_closed E fuel dir walked Hw); eauto.
    apply names_where_In. now exists d.
Qed.

Lemma tree_sub_reachable : reachable Sample.tree "/r" "/r/sub".
Proof.
  apply (reach_entry Sample.tree "/r" "/r"
           [ Sample.file_entry "a.py"; Sample.file_entry "d.txt";
             Sample.dir_entry "sub"; Sample.file_entry "b.py";
             Sample.dir_entry "loop"; Sample.dir_entry "locked";
             Sample.file_entry "c.py" ] (Sample.dir_entry "sub")).
  - constructor.
  - reflexivity.
  - simpl. auto.
  - reflexivity.
  - reflexivity.
Qed.

(* ================================================================== *)
(** ** What the walk reaches *)

Lemma reachable_trans (E : Env) (a b c : string) :
  reachable E a b -> reachable E b c -> reachable E a c.
Proof.
  intros Hab Hbc. induction Hbc as [|parent entries d _ IH Hscan Hd Hdir Hlink].
  - exact Hab.
  - eapply reach_entry; eauto.
Qed.

(** Every directory a walk yields is reachable from its top. *)
Lemma walk_reaches (E : Env) (fuel : nat) :
  forall top walked,
    Os.walk E false fuel top = Some walked ->
    Forall (fun t => reachable E top (root_of t)) walked.
Proof.
  induction fuel as [|fuel IH]; intros top walked; [discriminate|].
  simpl. destruct (scandir E top) as [entries|] eqn:Hscan.
  2:{ intros [= <-]. constructor. }
  destruct (Os.yield_from_each _ _) as [rest|] eqn:Hy; [|discriminate].
  intros [= <-]. constructor; [apply reach_root|].
  eapply yield_from_each_Forall; [exact Hy|].
  intros dirname l' Hin. simpl.
  destruct (islink E (join top dirname)) eqn:Hl; simpl.
  - intros [= <-]. constructor.
  - intros Hw. apply IH in Hw. eapply Forall_impl; [|exact Hw].
    intros t Ht. eapply reachable_trans; [|exact Ht].
    apply names_where_In in Hin as (d & Hd & Hdir & <-).
    eapply reach_entry; eauto. apply reach_root.
Qed.

(** The files a walk hands to line 23 are the entries that are no
    directory and end in [.py] of the listed reachable directories. *)
Lemma scanned_are_reachable_files
    (E : Env) (fuel : nat) (dir : string) (walked : list Os.triple) (p : string) :
  Os.walk E false fuel dir = Some walked ->
  In p (scanned walked) <->
  exists root entries d,
    reachable E dir root
    /\ scandir E root = Some entries
    /\ In d entries
    /\ entry_is_dir d = false
    /\ endswith (entry_name d) suffix = true
    /\ p = join root (entry_name d).
Proof.
  intros Hw. rewrite In_scanned. split.
  - intros (root & dirs & files & name & Ht & Hname & Hpy & ->).
    pose proof (walk_yields_listings E false fuel dir walked Hw) as Hl.
    pose proof (walk_reaches E fuel dir walked Hw) as Hr.
    rewrite Forall_forall in Hl, Hr.
    destruct (Hl _ Ht) as (entries & Hscan & _ & ->).
    apply names_where_In in Hname as (d & Hd & Hnd & <-).
    exists root, entries, d. repeat split; auto.
    + exact (Hr _ Ht).
    + now destruct (entry_is_dir d).
  - intros (root & entries & d & Hreach & Hscan & Hd & Hnd & Hpy & ->).
    exists root, (Os.names_where entry_is_dir entries),
           (Os.names_where (fun e => negb (entry_is_dir e)) entries),
           (entry_name d).
    repeat split; auto.
    + eapply walk_complete; eauto.
    + apply names_where_In. exists d. repeat split; auto. now rewrite Hnd.
Qed.

Lemma same_tree_unfinished :
  same_tree Sample.unfinished Sample.unfinished_reversed.
Proof.
  repeat split. intros p. simpl.
  destruct (String.eqb p "/q"); simpl; [apply Permutation_rev | exact I].
Qed.

(* ================================================================== *)
(** ** Where the tokenizer says a NAME token is *)

Lemma substring_of_its_length (n m : nat) (s : string) :
  substring n (String.length (substring n m s)) s = substring n m s.
Proof.
  revert n m; induction s as [|c s IH]; intros [|n] [|m]; simpl;
    try reflexivity.
  - now rewrite IH.
  - apply IH.
  - apply IH.
Qed.

Lemma other_type_placed (n : nat) (line : string) (tok : TokenInfo) :
  tok_type tok <> NAME -> Tokenize.placed n line tok.
Proof. intros H Hty. contradiction. Qed.

Lemma andthen_yields {A B} (P : TokenInfo -> Prop)
    (m : Tokenize.run A) (k : A -> Tokenize.run B) :
  Forall P (Tokenize.yields m) ->
  (forall toks a, m = Tokenize.Goes toks a -> Forall P (Tokenize.yields (k a))) ->
  Forall P (Tokenize.yields (Tokenize.andthen m k)).
Proof.
  destruct m as [toks a|toks e|]; simpl; intros Hm Hk; auto.
  specialize (Hk toks a eq_refl).
  destruct (k a); simpl in *; auto; apply Forall_app; auto.
Qed.

Lemma yield_placed {A} (n : nat) (line : string) (tok : TokenInfo) (a : A) :
  Tokenize.placed n line tok ->
  Forall (Tokenize.placed n line)
         (Tokenize.yields (Tokenize.andthen (Tokenize.yield tok)
                                            (fun _ => Tokenize.pass a))).
Proof. intros H. simpl. now constructor. Qed.

(** One pseudo-token: what it yields is placed on the line, and the
    line number stays. *)
Lemma pseudo_token_placed (L : Tokenize.Lexicon) (line : string) (pos : nat)
    (v : Tokenize.vars) :
  Forall (Tokenize.placed (Tokenize.lnum v) line)
         (Tokenize.yields (Tokenize.pseudo_token L line pos v))
  /\ (forall toks pos' v' b,
        Tokenize.pseudo_token L line pos v = Tokenize.Goes toks (pos', v', b) ->
        Tokenize.lnum v' = Tokenize.lnum v).
Proof.
  unfold Tokenize.pseudo_token.
  destruct (Tokenize.pseudomatch L line pos) as [[start end_]|].
  2:{ split.
      - simpl. constructor; [|constructor].
        apply other_type_placed. discriminate.
      - simpl. intros toks pos' v' b [= _ _ <- _]. reflexivity. }
  repeat match goal with
         | |- context [if ?b then _ else _] => destruct b
         | |- context [match ?o with Some _ => _ | None => _ end] => destruct o
         end;
    (split;
     [ simpl; repeat constructor;
       first [ apply other_type_placed; discriminate
             | intros _; exists start, end_; repeat split ]
     | simpl; intros toks pos' v' b H; injection H as _ _ <- _; reflexivity ]).
Qed.

(** The pseudo-tokens of a line. *)
Lemma pseudo_tokens_placed (L : Tokenize.Lexicon) (fuel : nat) (line : string) :
  forall pos v,
    Forall (Tokenize.placed (Tokenize.lnum v) line)
           (Tokenize.yields (Tokenize.pseudo_tokens L fuel line pos v))
    /\ (forall toks v',
          Tokenize.pseudo_tokens L fuel line pos v = Tokenize.Goes toks v' ->
          Tokenize.lnum v' = Tokenize.lnum v).
Proof.
  induction fuel as [|fuel IH]; intros pos v; simpl.
  - split; [constructor | discriminate].
  - destruct (Nat.ltb pos (String.length line)).
    2:{ split; [constructor|]. now intros toks v' [= _ <-]. }
    destruct (pseudo_token_placed L line pos v) as [Hy Hn].
    destruct (Tokenize.pseudo_token L line pos v)
      as [toks [[pos' v1] broke]|toks e|]; simpl in *.
    + specialize (Hn toks pos' v1 broke eq_refl).
      destruct broke; simpl.
      * split.
        -- apply Forall_app. split; [exact Hy | constructor].
        -- intros toks' v' [= _ <-]. exact Hn.
      * destruct (IH pos' v1) as [Hy' Hn']. rewrite Hn in Hy', Hn'.
        destruct (Tokenize.pseudo_tokens L fuel line pos' v1)
          as [toks1 v2|toks1 e|]; simpl in *.
        -- split; [apply Forall_app; now split|].
           intros toks' v' [= _ <-]. now apply (Hn' toks1).
        -- split; [apply Forall_app; now split | discriminate].
        -- split; [constructor | discriminate].
    + split; [exact Hy | discriminate].
    + split; [constructor | discriminate].
Qed.

Lemma dedents_placed (n pos column : nat) (line : string) (stack : list nat) :
  Forall (Tokenize.placed n line)
         (Tokenize.yields (Tokenize.dedents n pos column line stack)).
Proof.
  induction stack as [|top below IH]; simpl; [constructor|].
  destruct (Nat.ltb column top); [|constructor].
  destruct (negb _); [constructor|].
  destruct (Tokenize.dedents n pos column line below); simpl in *;
    constructor; auto; apply other_type_placed; discriminate.
Qed.

(** At the end of the file, where [readline] gives the empty line,
    nothing is yielded in the loop. *)
Lemma one_line_at_eof (L : Tokenize.Lexicon) (fuel : nat) (v : Tokenize.vars) :
  Tokenize.yields (Tokenize.one_line L fuel v EmptyString) = [].
Proof.
  unfold Tokenize.one_line. simpl.
  destruct (negb _); [reflexivity|].
  destruct (_ && _); reflexivity.
Qed.

Lemma andthen_both {A B} (P : TokenInfo -> Prop) (R : B -> Prop)
    (m : Tokenize.run A) (k : A -> Tokenize.run B) :
  Forall P (Tokenize.yields m) ->
  (forall toks a,
      m = Tokenize.Goes toks a ->
      Forall P (Tokenize.yields (k a))
      /\ (forall toks' b, k a = Tokenize.Goes toks' b -> R b)) ->
  Forall P (Tokenize.yields (Tokenize.andthen m k))
  /\ (forall toks b, Tokenize.andthen m k = Tokenize.Goes toks b -> R b).
Proof.
  destruct m as [toks a|toks e|]; simpl; intros Hm Hk.
  - destruct (Hk toks a eq_refl) as [H1 H2].
    destruct (k a) as [toks' b|toks' e|]; simpl in *.
    + split; [apply Forall_app; now split|].
      intros toks0 b0 [= _ <-]. now apply (H2 toks').
    + split; [apply Forall_app; now split | discriminate].
    + split; [constructor | discriminate].
  - split; [exact Hm | discriminate].
  - split; [constructor | discriminate].
Qed.

Lemma pass_both {A} (P : TokenInfo -> Prop) (R : A -> Prop) (a : A) :
  R a ->
  Forall P (Tokenize.yields (Tokenize.pass a))
  /\ (forall toks b, Tokenize.pass a = Tokenize.Goes toks b -> R b).
Proof.
  intros H. split; [constructor|]. now intros toks b [= _ <-].
Qed.

Lemma raise_both {A} (P : TokenInfo -> Prop) (R : A -> Prop) (e : exn) :
  Forall P (Tokenize.yields (@Tokenize.raise A e))
  /\ (forall toks b, @Tokenize.raise A e = Tokenize.Goes toks b -> R b).
Proof. split; [constructor | discriminate]. Qed.

Lemma yield_other (n : nat) (line : string) (tok : TokenInfo) :
  tok_type tok <> NAME ->
  Forall (Tokenize.placed n line) (Tokenize.yields (Tokenize.yield tok)).
Proof.
  intros H. simpl. constructor; [|constructor]. now apply other_type_placed.
Qed.

(** The pseudo-tokens of a line, and on to the next line. *)
Lemma pseudo_tokens_next (L : Tokenize.Lexicon) (fuel : nat) (line : string)
    (pos n : nat) (v : Tokenize.vars) :
  Tokenize.lnum v = n ->
  Forall (Tokenize.placed n line)
         (Tokenize.yields
            (Tokenize.andthen (Tokenize.pseudo_tokens L fuel line pos v)
                              (fun v' => Tokenize.pass (v', false))))
  /\ (forall toks r,
        Tokenize.andthen (Tokenize.pseudo_tokens L fuel line pos v)
                         (fun v' => Tokenize.pass (v', false))
        = Tokenize.Goes toks r ->
        Tokenize.lnum (fst r) = n).
Proof.
  intros <-. destruct (pseudo_tokens_placed L fuel line pos v) as [Hy Hn].
  apply andthen_both; [exact Hy|].
  intros toks v' Hrun. apply pass_both. simpl. eapply Hn, Hrun.
Qed.

(** One line: what the loop yields for it is placed on it, and the line
    number has gone up by one. *)
Lemma one_line_placed (L : Tokenize.Lexicon) (fuel : nat) (v : Tokenize.vars)
    (line : string) :
  Forall (Tokenize.placed (S (Tokenize.lnum v)) line)
         (Tokenize.yields (Tokenize.one_line L fuel v line))
  /\ (forall toks r,
        Tokenize.one_line L fuel v line = Tokenize.Goes toks r ->
        Tokenize.lnum (fst r) = S (Tokenize.lnum v)).
Proof.
  unfold Tokenize.one_line.
  destruct (negb (String.eqb (Tokenize.contstr v) EmptyString)).
  { destruct (String.eqb line EmptyString); [apply raise_both|].
    destruct (Tokenize.endprog v line 0) as [end0|].
    - apply andthen_both; [apply yield_other; discriminate|].
      intros _ _ _. now apply pseudo_tokens_next.
    - destruct (_ && _).
      + apply andthen_both; [apply yield_other; discriminate|].
        intros _ _ _. now apply pass_both.
      + now apply pass_both. }
  destruct (_ && _).
  { destruct (String.eqb line EmptyString); [now apply pass_both|].
    destruct (Tokenize.measure line 0 0) as [pos column].
    destruct (Nat.eqb pos (String.length line)); [now apply pass_both|].
    destruct (Tokenize.contains _ _).
    - apply andthen_both.
      + destruct (String.eqb _ _); [|constructor].
        simpl. constructor; [|constructor].
        apply other_type_placed. discriminate.
      + intros _ pos' _.
        apply andthen_both; [apply yield_other; discriminate|].
        intros _ _ _. now apply pass_both.
    - apply andthen_both.
      + destruct (Nat.ltb _ _); [|constructor].
        simpl. constructor; [|constructor].
        apply other_type_placed. discriminate.
      + intros _ stack _.
        apply andthen_both; [apply dedents_placed|].
        intros _ stack' _. now apply pseudo_tokens_next. }
  destruct (String.eqb line EmptyString); [apply raise_both|].
  now apply pseudo_tokens_next.
Qed.

(** All the lines: a NAME token comes from one of them, the [i]-th
    after the first, which has the number [first + i], and is cut from
    its decoded text. *)
Lemma all_lines_placed (L : Tokenize.Lexicon) (fuel : nat) (encoding : string) :
  forall lines v,
    Forall (fun tok =>
              tok_type tok = NAME ->
              exists i raw line,
                nth_error lines i = Some raw
                /\ Tokenize.decode L encoding raw = Returns line
                /\ Tokenize.placed (S (Tokenize.lnum v) + i) line tok)
           (Tokenize.yields (Tokenize.all_lines L fuel encoding v lines)).
Proof.
  induction lines as [|raw lines IH]; intros v; simpl.
  - pose proof (one_line_at_eof L fuel v) as He.
    destruct (Tokenize.one_line L fuel v EmptyString); simpl in *;
      subst; constructor.
  - destruct (Tokenize.decode L encoding raw) as [line|e] eqn:Hd;
      [|constructor].
    destruct (one_line_placed L fuel v line) as [Hy Hn].
    apply andthen_yields.
    + eapply Forall_impl; [|exact Hy].
      intros tok Hp Hty. exists 0, raw, line.
      rewrite Nat.add_0_r. now repeat split.
    + intros toks r Hrun. specialize (Hn toks r Hrun).
      destruct (snd r); [constructor|].
      eapply Forall_impl; [|apply IH].
      intros tok H Hty. destruct (H Hty) as (i & raw' & line' & Hi & Hd' & Hp).
      exists (S i), raw', line'. rewrite Hn in Hp.
      rewrite Nat.add_succ_r. now repeat split.
Qed.

Lemma yield_each_types (toks : list TokenInfo) :
  Tokenize.yield_each toks = Tokenize.Goes toks tt.
Proof.
  induction toks as [|tok toks IH]; [reflexivity|].
  simpl. now rewrite IH.
Qed.

(** After the loop no NAME token is yielded. *)
Lemma at_end_no_name (v : Tokenize.vars) :
  Forall (fun tok => tok_type tok <> NAME)
         (Tokenize.yields (Tokenize.at_end v)).
Proof.
  unfold Tokenize.at_end.
  apply andthen_yields.
  - destruct (_ && _); simpl; repeat constructor; discriminate.
  - intros _ _ _. apply andthen_yields.
    + rewrite yield_each_types. simpl. apply Forall_forall.
      intros tok Hin. apply in_map_iff in Hin as (x & <- & _). discriminate.
    + intros _ _ _. simpl. repeat constructor. discriminate.
Qed.

(** The generator: a NAME token it yields has the number of the line it
    is cut from, the lines being counted from 1, and starts at the
    column where its text is in that line. *)
Lemma _tokenize_placed (L : Tokenize.Lexicon) (fuel : nat) (encoding : string)
    (lines : list (list Byte.byte)) :
  Forall (fun tok =>
            tok_type tok = NAME ->
            exists codec i raw line,
              nth_error lines i = Some raw
              /\ Tokenize.decode L codec raw = Returns line
              /\ Tokenize.placed (S i) line tok)
         (Tokenize.yields (Tokenize._tokenize L fuel encoding lines)).
Proof.
  unfold Tokenize._tokenize.
  set (codec := if String.eqb encoding "utf-8-sig" then "utf-8" else encoding).
  apply andthen_yields.
  - simpl. constructor; [discriminate | constructor].
  - intros _ _ _. apply andthen_yields.
    + eapply Forall_impl; [|apply all_lines_placed].
      intros tok H Hty. destruct (H Hty) as (i & raw & line & Hi & Hd & Hp).
      exists codec, i, raw, line. now repeat split.
    + intros _ v _. eapply Forall_impl; [|apply at_end_no_name].
      intros tok H Hty. contradiction.
Qed.

(** The lines read from a file are the file, cut. *)
Lemma readlines_from_concat (content line : list Byte.byte) :
  List.concat (Tokenize.readlines_from line content) = rev line ++ content.
Proof.
  revert line; induction content as [|b content IH]; intros line; simpl.
  - destruct line; simpl; [reflexivity|]. now rewrite !app_nil_r.
  - destruct (Byte.eqb b Byte.x0a); simpl; rewrite IH; simpl.
    + now rewrite <- app_assoc.
    + now rewrite <- app_assoc.
Qed.

Lemma readlines_concat (content : list Byte.byte) :
  List.concat (Tokenize.readlines content) = content.
Proof. apply readlines_from_concat. Qed.

Lemma readlines_from_not_empty (content line : list Byte.byte) :
  Forall (fun l => l <> []) (Tokenize.readlines_from line content).
Proof.
  revert line; induction content as [|b content IH]; intros line; simpl.
  - destruct line as [|x line]; constructor; [|constructor].
    simpl. now destruct (rev line).
  - destruct (Byte.eqb b Byte.x0a); [|apply IH].
    constructor; [|apply IH]. simpl. now destruct (rev line).
Qed.

(** The lines the generator reads are those of the file, the first
    without its byte-order mark. *)
Lemma lines_read_of_file (L : Tokenize.Lexicon) (content : list Byte.byte)
    (encoding : string) (lines : list (list Byte.byte)) :
  Tokenize.lines_read L content = Returns (encoding, lines) ->
  lines = Tokenize.without_bom (Tokenize.readlines content).
Proof.
  unfold Tokenize.lines_read, Tokenize.detect_encoding, Tokenize.without_bom.
  pose proof (readlines_from_not_empty content []) as Hne.
  fold (Tokenize.readlines content) in Hne.
  destruct (Tokenize.readlines content) as [|first more].
  - simpl. intros H; inversion H; reflexivity.
  - cbn [hd]. set (stripped := skipn 3 first). simpl.
    apply Forall_cons_iff in Hne as [Hfirst Hmore].
    assert (Hsecond : forall second more',
               more = second :: more' -> Tokenize.no_bytes second = false).
    { intros second more' ->. apply Forall_cons_iff in Hmore as [H _].
      now destruct second. }
    destruct (Tokenize.starts_with_bom first) eqn:Hbom.
    + destruct (Tokenize.no_bytes stripped) eqn:Hrest;
        [(intros H; inversion H; reflexivity)|].
      destruct (Tokenize.find_cookie L true stripped) as [[enc|]|e];
        [(intros H; inversion H; reflexivity)| |discriminate].
      destruct (negb _); [(intros H; inversion H; reflexivity)|].
      destruct more as [|second more']; simpl; [(intros H; inversion H; reflexivity)|].
      rewrite (Hsecond second more' eq_refl).
      destruct (Tokenize.find_cookie L true second) as [[enc|]|e];
        [(intros H; inversion H; reflexivity) | (intros H; inversion H; reflexivity) | discriminate].
    + assert (Hf : Tokenize.no_bytes first = false) by now destruct first.
      rewrite Hf.
      destruct (Tokenize.find_cookie L false first) as [[enc|]|e];
        [(intros H; inversion H; reflexivity)| |discriminate].
      destruct (negb _); [(intros H; inversion H; reflexivity)|].
      destruct more as [|second more']; simpl; [(intros H; inversion H; reflexivity)|].
      rewrite (Hsecond second more' eq_refl).
      destruct (Tokenize.find_cookie L false second) as [[enc|]|e];
        [(intros H; inversion H; reflexivity) | (intros H; inversion H; reflexivity) | discriminate].
Qed.

(** [tokenize]: every NAME token of the stream has as its start the
    number, counted from 1, of the line it is cut from, and the column,
    counted from 0, where its text begins in this line as decoded. *)
Lemma tokenize_placed (L : Tokenize.Lexicon) (fuel : nat)
    (content : list Byte.byte) (stream : TokenStream) (tok : TokenInfo) :
  Tokenize.tokenize L fuel content = Some stream ->
  In tok (yielded stream) ->
  tok_type tok = NAME ->
  exists codec i raw line c,
    nth_error (Tokenize.without_bom (Tokenize.readlines content)) i = Some raw
    /\ Tokenize.decode L codec raw = Returns line
    /\ tok_start tok = (S i, c)
    /\ substring c (String.length (tok_string tok)) line = tok_string tok
    /\ tok_line tok = line.
Proof.
  unfold Tokenize.tokenize.
  destruct (Tokenize.lines_read L content) as [[encoding lines]|e] eqn:Hl.
  2:{ intros [= <-] []. }
  apply lines_read_of_file in Hl. subst lines.
  pose proof (_tokenize_placed L fuel encoding
                (Tokenize.without_bom (Tokenize.readlines content))) as Hp.
  rewrite Forall_forall in Hp.
  intros Hrun Hin Hty.
  assert (Hy : In tok (Tokenize.yields
                         (Tokenize._tokenize L fuel encoding
                            (Tokenize.without_bom (Tokenize.readlines content))))).
  { destruct (Tokenize._tokenize _ _ _ _); [| |discriminate];
      injection Hrun as <-; exact Hin. }
  destruct (Hp tok Hy Hty) as (codec & i & raw & line & Hi & Hd & Hplaced).
  destruct (Hplaced Hty) as (c & e & Hs & _ & Htext & Hline).
  exists codec, i, raw, line, c. repeat split; auto.
  rewrite Htext. unfold Tokenize.slice. apply substring_of_its_length.
Qed.

(* ================================================================== *)
(** ** Properties of the specification *)

(** C1.  When a file is tokenized to the end, scanning it prints one match
    line for each token of type NAME whose text is exactly [await] or
    [async], in source order, and adds to [c_await] the number of NAME
    tokens spelled [await] and to [c_async] the number of those spelled
    [async]; the error counter is untouched.  The tokens that count are
    exactly the tokens of the file with type NAME and that exact text:
    a token of another type, whatever its text, adds nothing. *)
Theorem tokenized_file_matches_and_counts
    (E : Env) (root name : string) (f : list Byte.byte) (s : state) :
  endswith name suffix = true ->
  open_rb E (join root name) = Returns f ->
  raised (tokenize E f) = None ->
  let filename := join root name in
  let toks := yielded (tokenize E f) in
  scan_file E root name s =
    Done tt (mkState (stdout s ++ map (match_line filename) (keyword_tokens toks))
                     (opened s ++ [filename])
                     (c_error s)
                     (c_async s + List.length (name_tokens "async" toks))
                     (c_await s + List.length (name_tokens "await" toks)))
  /\ List.length (keyword_tokens toks) =
     List.length (name_tokens "await" toks) + List.length (name_tokens "async" toks)
  /\ (forall tok, In tok (keyword_tokens toks) <->
        In tok toks /\ tok_type tok = NAME /\
        (tok_string tok = "await" \/ tok_string tok = "async"))
  /\ (forall kw tok, In tok (name_tokens kw toks) <->
        In tok toks /\ tok_type tok = NAME /\ tok_string tok = kw).
Proof.
  intros Hname Hopen Hend filename toks. subst filename toks.
  split; [|split; [apply keyword_tokens_length|split]].
  - rewrite (scan_file_scanned _ _ _ _ Hname), scan_path_spec.
    unfold file_result_of. rewrite Hopen.
    unfold py_list. rewrite Hend.
    unfold advance. now rewrite Nat.add_0_r.
  - apply keyword_tokens_In.
  - intros kw tok. apply name_tokens_In.
Qed.

(** C1 at [c.py] of the sample tree: three match lines, two [async] and
    one [await]; the string ['await await'] counts for nothing. *)
Lemma tokenized_file_matches_and_counts_witness :
  scan_file Sample.tree "/r" "c.py" init_state =
  Done tt (mkState [ ("async" ++ TAB ++ "/r/c.py: (1, 0)")%string;
                     ("await" ++ TAB ++ "/r/c.py: (2, 0)")%string;
                     ("async" ++ TAB ++ "/r/c.py: (2, 8)")%string ]
                   ["/r/c.py"] 0 2 1).
Proof.
  exact (proj1 (tokenized_file_matches_and_counts
                  Sample.tree "/r" "c.py" Sample.c_py init_state
                  eq_refl eq_refl eq_refl)).
Defined.

(** C2 as stated fails at [u.py] of the directory [/q], a file whose
    one line leaves a bracket open.  Its name ends in [.py] and it
    opens; its tokenization yields tokens and then raises
    [tokenize.TokenError] (so does the tokenizer written out in
    [Tokenize]), which line 28 does not catch.  Scanning the
    file then ends with that exception: nothing is printed for the file,
    neither a match nor an [ERROR] line, and the error counter is not
    incremented. *)
Theorem unfinished_file_gets_no_failure_record :
  endswith "u.py" suffix = true
  /\ open_rb Sample.unfinished (join "/q" "u.py") = Returns Sample.u_py
  /\ yielded (tokenize Sample.unfinished Sample.u_py) = Sample.u_tokens
  /\ raised (tokenize Sample.unfinished Sample.u_py) = Some Sample.u_error
  /\ exn_cls Sample.u_error = TokenError
  /\ caught Sample.u_error = false
  /\ Tokenize.tokenize Plain.lexicon 30 Sample.u_py
     = Some (mkStream Sample.u_tokens (Some Sample.u_error))
  /\ scan_file Sample.unfinished "/q" "u.py" init_state =
       Uncaught Sample.u_error (mkState [] ["/q/u.py"] 0 0 0).
Proof. repeat split. Qed.

(** C3.  A file whose only fault is a bracket left open makes
    [tokenize] raise [tokenize.TokenError] (the case its documentation
    gives for that exception), which is no [SyntaxError] and which line
    28 does not catch: in the directory [/q] of [a.py], [u.py] and [c.py]
    the run ends at [u.py] with that exception; no [ERROR] line is
    printed, the error counter stays at zero, [c.py] is never opened and
    there is no summary. *)
Theorem unfinished_file_aborts_the_run :
  raised (tokenize Sample.unfinished Sample.u_py) = Some Sample.u_error /\
  exn_cls Sample.u_error = TokenError /\
  caught Sample.u_error = false /\
  Os.walk Sample.unfinished false 2 "/q" =
    Some [("/q", [], ["a.py"; "u.py"; "c.py"])] /\
  main Sample.unfinished 2 "/q" =
    Some (Uncaught Sample.u_error
            (mkState [ "Directory:  /q"; EmptyString;
                       ("await" ++ TAB ++ "/q/a.py: (1, 4)")%string ]
                     ["/q/a.py"; "/q/u.py"] 0 0 1)).
Proof. repeat split. Qed.

(** Beside C3.  When the tokenization of a file raises [SyntaxError], one
    of its subclasses or [UnicodeDecodeError], the loop prints one [ERROR]
    line with the file name and the message, adds one to the error
    counter, and goes on with the files that follow. *)
Lemma caught_failure_continues
    (E : Env) (filename : string) (f : list Byte.byte) (e : exn)
    (rest : list string) (s : state) :
  open_rb E filename = Returns f ->
  raised (tokenize E f) = Some e ->
  caught e = true ->
  for_each (filename :: rest) (scan_path E) s =
  for_each rest (scan_path E)
    (mkState (stdout s ++ [error_line filename e]) (opened s ++ [filename])
             (c_error s + 1) (c_async s) (c_await s)).
Proof.
  intros Hopen Hend Hc. simpl for_each. unfold bind.
  rewrite scan_path_spec. unfold file_result_of, py_list.
  rewrite Hopen, Hend, Hc. unfold advance. now rewrite !Nat.add_0_r.
Qed.

(** At [b.py] of the sample tree, with [c.py] to follow. *)
Lemma caught_failure_continues_witness :
  for_each ["/r/b.py"; "/r/c.py"] (scan_path Sample.tree) init_state =
  for_each ["/r/c.py"] (scan_path Sample.tree)
    (mkState [error_line "/r/b.py" Sample.b_error] ["/r/b.py"] 1 0 0).
Proof.
  exact (caught_failure_continues Sample.tree "/r/b.py" Sample.b_py
           Sample.b_error ["/r/c.py"] init_state eq_refl eq_refl eq_refl).
Defined.

(** C4, as the code has it.  Take a run that ends normally, over
    directories that list plain names, each once.  The files it opened
    are, each once, the entries that are no directory and whose name
    ends in [.py] of the directories the walk lists: the root and, from
    there on, every entry that is a directory, is no symbolic link and
    can be listed.  The final error count plus the number of those files
    tokenized to the end is their number, and the error count is the
    number of those whose tokenization failed.  A file tokenized to the
    end without an [await] or [async] NAME token is opened and changes
    neither the output nor any of the three counters.  Files of a
    directory that cannot be listed, or behind a link, are no part of
    the count. *)
Theorem error_count_plus_tokenized_is_total
    (E : Env) (fuel : nat) (dir : string) (s : state) :
  well_listed E ->
  main E fuel dir = Some (Done tt s) ->
  NoDup (opened s)
  /\ (forall p,
        In p (opened s) <->
        exists root entries d,
          reachable E dir root
          /\ scandir E root = Some entries
          /\ In d entries
          /\ entry_is_dir d = false
          /\ endswith (entry_name d) suffix = true
          /\ p = join root (entry_name d))
  /\ c_error s + List.length (filter (tokenized E) (opened s))
     = List.length (opened s)
  /\ c_error s = List.length (filter (failed E) (opened s))
  /\ (forall filename f s0,
        open_rb E filename = Returns f ->
        raised (tokenize E f) = None ->
        keyword_tokens (yielded (tokenize E f)) = [] ->
        scan_path E filename s0 =
        Done tt (mkState (stdout s0) (opened s0 ++ [filename])
                         (c_error s0) (c_async s0) (c_await s0))).
Proof.
  intros Hwl. unfold main.
  destruct (Os.walk E false fuel dir) as [walked|] eqn:Hw; [|discriminate].
  intros [= Hrun].
  pose proof (script_done_inv _ _ _ _ Hrun) as Hall.
  rewrite (script_done _ _ _ Hall) in Hrun. injection Hrun as <-.
  assert (Hopened : opened (end_state E dir (scanned walked)) = scanned walked)
    by reflexivity.
  assert (Herr : c_error (end_state E dir (scanned walked))
                 = List.length (filter (failed E) (scanned walked))).
  { unfold end_state, loops_state, advance; simpl.
    unfold errors_of. apply total_indicator. }
  rewrite Hopened, Herr.
  split; [eapply scanned_NoDup; eauto|].
  split; [intros p; eapply scanned_are_reachable_files; eauto|].
  split; [now apply all_pass_partition|].
  split; [reflexivity|].
  intros filename f s0 Hopen Hend Hnone.
  rewrite scan_path_spec. unfold file_result_of, py_list.
  rewrite Hopen, Hend, Hnone.
  destruct (keyword_tokens_nil _ Hnone) as [-> ->].
  unfold advance; simpl. now rewrite app_nil_r, !Nat.add_0_r.
Qed.

(** C4 on the sample tree: four [.py] files in [/r] and [/r/sub], one
    failed, three tokenized (one of them, [sub/e.py], without a match). *)
Lemma error_count_plus_tokenized_is_total_witness :
  NoDup ["/r/a.py"; "/r/b.py"; "/r/c.py"; "/r/sub/e.py"]
  /\ 1 + List.length (filter (tokenized Sample.tree)
                        ["/r/a.py"; "/r/b.py"; "/r/c.py"; "/r/sub/e.py"]) = 4
  /\ 1 = List.length (filter (failed Sample.tree)
                        ["/r/a.py"; "/r/b.py"; "/r/c.py"; "/r/sub/e.py"]).
Proof.
  refine (let H := error_count_plus_tokenized_is_total Sample.tree 2 "/r"
            (mkState
               [ "Directory:  /r"; EmptyString;
                 ("await" ++ TAB ++ "/r/a.py: (1, 4)")%string;
                 error_line "/r/b.py" Sample.b_error;
                 ("async" ++ TAB ++ "/r/c.py: (1, 0)")%string;
                 ("await" ++ TAB ++ "/r/c.py: (2, 0)")%string;
                 ("async" ++ TAB ++ "/r/c.py: (2, 8)")%string;
                 EmptyString;
                 "# of errors:  1"; "# of `await`:  2"; "# of `async`:  2" ]
               ["/r/a.py"; "/r/b.py"; "/r/c.py"; "/r/sub/e.py"] 1 2 2)
            tree_well_listed _ in
          conj (proj1 H)
               (conj (proj1 (proj2 (proj2 H)))
                     (proj1 (proj2 (proj2 (proj2 H)))))).
  vm_compute. reflexivity.
Defined.

(** C4 as stated fails in two ways.  By design: in the tree [/r] whose
    directory [/r/locked] cannot be listed, five files with a name in
    [.py] lie under the root (each opens), the run ends normally, and
    its error count plus the number of files it tokenized to the end is
    four.  And where a file aborts the run: in [/q], three such files
    lie under the root, and the run ends at the second with no error
    counted and one file tokenized to the end. *)
Lemma files_under_the_root_left_out :
  map (fun p => (startswith p "/r/", endswith p suffix,
                 open_rb Sample.searchable p))
      ["/r/a.py"; "/r/b.py"; "/r/c.py"; "/r/sub/e.py"; "/r/locked/g.py"]
  = [ (true, true, Returns Sample.a_py); (true, true, Returns Sample.b_py);
      (true, true, Returns Sample.c_py); (true, true, Returns Sample.e_py);
      (true, true, Returns Sample.e_py) ]
  /\ scandir Sample.searchable "/r/locked" = None
  /\ main Sample.searchable 2 "/r" =
       Some (Done tt
         (mkState
            [ "Directory:  /r"; EmptyString;
              ("await" ++ TAB ++ "/r/a.py: (1, 4)")%string;
              error_line "/r/b.py" Sample.b_error;
              ("async" ++ TAB ++ "/r/c.py: (1, 0)")%string;
              ("await" ++ TAB ++ "/r/c.py: (2, 0)")%string;
              ("async" ++ TAB ++ "/r/c.py: (2, 8)")%string;
              EmptyString;
              "# of errors:  1"; "# of `await`:  2"; "# of `async`:  2" ]
            ["/r/a.py"; "/r/b.py"; "/r/c.py"; "/r/sub/e.py"] 1 2 2))
  /\ 1 + List.length
           (filter (tokenized Sample.searchable)
                   ["/r/a.py"; "/r/b.py"; "/r/c.py"; "/r/sub/e.py"]) = 4
  /\ List.length
       ["/r/a.py"; "/r/b.py"; "/r/c.py"; "/r/sub/e.py"; "/r/locked/g.py"] = 5
  /\ map (fun p => (startswith p "/q/", endswith p suffix,
                    open_rb Sample.unfinished p))
         ["/q/a.py"; "/q/u.py"; "/q/c.py"]
     = [ (true, true, Returns Sample.a_py); (true, true, Returns Sample.u_py);
         (true, true, Returns Sample.c_py) ]
  /\ main Sample.unfinished 2 "/q" =
       Some (Uncaught Sample.u_error
               (mkState [ "Directory:  /q"; EmptyString;
                          ("await" ++ TAB ++ "/q/a.py: (1, 4)")%string ]
                        ["/q/a.py"; "/q/u.py"] 0 0 1))
  /\ 0 + List.length
           (filter (tokenized Sample.unfinished) ["/q/a.py"; "/q/u.py"]) = 1.
Proof. repeat split. Qed.




(** C6 as stated fails in the directory [/q], which holds [a.py],
    [u.py] and [c.py] in this order: the walk enumerates the three
    names, [c.py] ends in [.py], and the run opens [a.py] and [u.py]
    only; it ends at [u.py], whose tokenization raises an exception that
    line 28 does not catch, and [c.py] is never scanned. *)
Theorem file_after_unfinished_is_not_scanned :
  Os.walk Sample.unfinished false 2 "/q"
  = Some [("/q", [], ["a.py"; "u.py"; "c.py"])]
  /\ enumerated [("/q", [], ["a.py"; "u.py"; "c.py"])]
     = [("/q", "a.py"); ("/q", "u.py"); ("/q", "c.py")]
  /\ endswith "c.py" suffix = true
  /\ option_map (fun r => opened (final_state r))
                (main Sample.unfinished 2 "/q")
     = Some ["/q/a.py"; "/q/u.py"]
  /\ existsb (String.eqb (join "/q" "c.py")) ["/q/a.py"; "/q/u.py"] = false.
Proof. repeat split. Qed.

(** C7 as stated fails in the directory [/q], which holds [a.py],
    [u.py] and [c.py]: the run prints the directory line, an empty line
    and the match of [a.py], and ends there with the exception that the
    tokenization of [u.py] raises.  The output has no line for [u.py] or
    [c.py], no second empty line and no summary. *)
Theorem aborted_run_prints_no_summary :
  option_map (fun r => stdout (final_state r)) (main Sample.unfinished 2 "/q")
  = Some [ "Directory:  /q"; EmptyString;
           ("await" ++ TAB ++ "/q/a.py: (1, 4)")%string ]
  /\ option_map (fun r => match r with
                          | Done _ _ => None
                          | Uncaught e _ => Some e
                          end) (main Sample.unfinished 2 "/q")
     = Some (Some Sample.u_error)
  /\ lines_of Sample.unfinished "/q/c.py"
     = [ ("async" ++ TAB ++ "/q/c.py: (1, 0)")%string;
         ("await" ++ TAB ++ "/q/c.py: (2, 0)")%string;
         ("async" ++ TAB ++ "/q/c.py: (2, 8)")%string ].
Proof. repeat split. Qed.

(** C8 as stated fails in the directory [/q], which holds [a.py],
    [u.py] and [c.py], scanned once as listed and once listed backwards,
    the tree unchanged.  Both runs end at [u.py] with the exception its
    tokenization raises; the first has scanned [a.py] before and counts
    one [await] and no [async], the second has scanned [c.py] before and
    counts one [await] and two [async], with other lines. *)
Theorem listing_order_changes_the_counts :
  same_tree Sample.unfinished Sample.unfinished_reversed
  /\ main Sample.unfinished 2 "/q" =
       Some (Uncaught Sample.u_error
               (mkState [ "Directory:  /q"; EmptyString;
                          ("await" ++ TAB ++ "/q/a.py: (1, 4)")%string ]
                        ["/q/a.py"; "/q/u.py"] 0 0 1))
  /\ main Sample.unfinished_reversed 2 "/q" =
       Some (Uncaught Sample.u_error
               (mkState [ "Directory:  /q"; EmptyString;
                          ("async" ++ TAB ++ "/q/c.py: (1, 0)")%string;
                          ("await" ++ TAB ++ "/q/c.py: (2, 0)")%string;
                          ("async" ++ TAB ++ "/q/c.py: (2, 8)")%string ]
                        ["/q/c.py"; "/q/u.py"] 0 2 1)).
Proof.
  split; [exact same_tree_unfinished|]. split; reflexivity.
Qed.

(** C9.  Take a scanned file that opens and on which the tokenizer of
    the environment is [tokenize.tokenize] of CPython, and a NAME token
    of it spelled [await] or [async], the file being tokenized to the
    end.  The line printed for the token ends in [(l, c)], the two
    numbers of [tok.start] in decimal, as a Python tuple.  Lines are
    counted from 1: [l] is at least 1, and the token is cut from the
    line of the file that has [l - 1] lines before it (the lines being
    those [readline] gives, the first without a byte-order mark).
    Columns are counted from 0: the text of the token is what this
    line, decoded, holds from the offset [c] on, [c] characters being
    before it. *)
Theorem match_position_is_token_start
    (L : Tokenize.Lexicon) (fuel : nat) (E : Env) (root name : string)
    (content : list Byte.byte) (s : state) (tok : TokenInfo) :
  endswith name suffix = true ->
  open_rb E (join root name) = Returns content ->
  Tokenize.tokenize L fuel content = Some (tokenize E content) ->
  raised (tokenize E content) = None ->
  In tok (yielded (tokenize E content)) ->
  tok_type tok = NAME ->
  tok_string tok = "await" \/ tok_string tok = "async" ->
  exists l c codec raw line,
    tok_start tok = (l, c)
    /\ In (tok_string tok ++ TAB ++ join root name ++ ": ("
           ++ str_int l ++ ", " ++ str_int c ++ ")")%string
          (stdout (final_state (scan_file E root name s)))
    /\ 1 <= l
    /\ nth_error (Tokenize.without_bom (Tokenize.readlines content)) (l - 1)
       = Some raw
    /\ Tokenize.decode L codec raw = Returns line
    /\ substring c (String.length (tok_string tok)) line = tok_string tok
    /\ List.concat (Tokenize.readlines content) = content
    /\ (forall n, option_map Nat.of_uint (NilEmpty.uint_of_string (str_int n))
                  = Some n).
Proof.
  intros Hname Hopen Hmodel Hend Hin Hty Hkw.
  destruct (tokenize_placed L fuel content _ tok Hmodel Hin Hty)
    as (codec & i & raw & line & c & Hi & Hd & Hs & Htext & _).
  exists (S i), c, codec, raw, line.
  split; [exact Hs|]. split.
  { rewrite (scan_file_scanned _ _ _ _ Hname), scan_path_spec.
    unfold file_result_of. rewrite Hopen. unfold py_list. rewrite Hend.
    unfold advance; cbn [final_state stdout].
    apply in_or_app. right. apply in_map_iff. exists tok. split.
    - unfold match_line, str_pair. rewrite Hs. reflexivity.
    - apply keyword_tokens_In. now repeat split. }
  split; [lia|]. split; [simpl; now rewrite Nat.sub_0_r|].
  split; [exact Hd|]. split; [exact Htext|].
  split; [apply readlines_concat | apply str_int_reads_back].
Qed.

(** C9 at the [await] of [a.py] in the sample tree, whose one line is
    [x = await]: the token starts at [(1, 4)]. *)
Lemma match_position_is_token_start_witness :
  exists l c codec raw line,
    tok_start (Sample.tk NAME "await" 1 4 ("x = await" ++ Sample.LF)) = (l, c)
    /\ In ("await" ++ TAB ++ "/r/a.py" ++ ": ("
           ++ str_int l ++ ", " ++ str_int c ++ ")")%string
          (stdout (final_state (scan_file Sample.tree "/r" "a.py" init_state)))
    /\ 1 <= l
    /\ nth_error (Tokenize.without_bom (Tokenize.readlines Sample.a_py)) (l - 1)
       = Some raw
    /\ Tokenize.decode Plain.lexicon codec raw = Returns line
    /\ substring c 5 line = "await"
    /\ List.concat (Tokenize.readlines Sample.a_py) = Sample.a_py
    /\ (forall n, option_map Nat.of_uint (NilEmpty.uint_of_string (str_int n))
                  = Some n).
Proof.
  refine (match_position_is_token_start Plain.lexicon 30 Sample.tree
            "/r" "a.py" Sample.a_py init_state
            (Sample.tk NAME "await" 1 4 ("x = await" ++ Sample.LF))
            eq_refl eq_refl _ eq_refl _ eq_refl (or_introl eq_refl)).
  - vm_compute. reflexivity.
  - vm_compute. auto 10.
Defined.

(** C10.  Take any environment whose real directories form a finite
    tree: some measure [rank] of paths goes down from a directory to each
    entry that is a directory and not a symbolic link.  Nothing is asked
    of the links, which may point back up.  Then the walk of the script
    (with [followlinks] false) ends, with any fuel above the rank of
    [dir]; more fuel gives the same enumeration; no triple below [dir]
    is for a path that is a symbolic link; no directory is yielded twice
    (when listings hold plain names, each once); and the run gives a
    result. *)
Theorem walk_terminates (E : Env) (rank : string -> nat) (dir : string) :
  (forall top entries d,
      scandir E top = Some entries -> In d entries ->
      entry_is_dir d = true ->
      islink E (join top (entry_name d)) = false ->
      rank (join top (entry_name d)) < rank top) ->
  exists walked,
    (forall fuel, rank dir < fuel -> Os.walk E false fuel dir = Some walked)
    /\ Forall (fun '(root, _, _) => root = dir \/ islink E root = false) walked
    /\ (well_listed E -> NoDup (map root_of walked))
    /\ (forall fuel, rank dir < fuel ->
          main E fuel dir = Some (script E dir walked init_state)).
Proof.
  intros Hfin.
  assert (Hends : forall fuel top, rank top < fuel ->
                    exists walked, Os.walk E false fuel top = Some walked).
  { induction fuel as [|fuel IH]; intros top Hr; [lia|].
    simpl. destruct (scandir E top) as [entries|] eqn:Hscan.
    2:{ now exists []. }
    destruct (yield_from_each_some
                (fun dirname =>
                   if false || negb (islink E (join top dirname))
                   then Os.walk E false fuel (join top dirname) else Some [])
                (Os.names_where entry_is_dir entries)) as [below Hb].
    - intros dirname Hin. simpl.
      destruct (islink E (join top dirname)) eqn:Hl; simpl; [now exists []|].
      apply names_where_In in Hin as (d & Hd & Hdir & <-).
      apply IH. specialize (Hfin top entries d Hscan Hd Hdir Hl). lia.
    - simpl in Hb |- *. rewrite Hb. eauto. }
  destruct (Hends (S (rank dir)) dir (Nat.lt_succ_diag_r _)) as [walked Hw].
  assert (Hall : forall fuel, rank dir < fuel ->
                   Os.walk E false fuel dir = Some walked).
  { intros fuel Hr. eapply walk_enough_fuel; [|exact Hw]. lia. }
  exists walked. split; [exact Hall|]. split; [|split].
  - eapply walk_skips_links, Hw.
  - intros Hwl. eapply walk_NoDup; [exact Hwl | exact Hw].
  - intros fuel Hr. unfold main. now rewrite (Hall fuel Hr).
Qed.

(** C10 on the sample tree, where [loop] links back to the root. *)
Lemma walk_terminates_witness :
  exists walked,
    (forall fuel, 1 < fuel -> Os.walk Sample.tree false fuel "/r" = Some walked)
    /\ Forall (fun '(root, _, _) =>
                 root = "/r" \/ islink Sample.tree root = false) walked
    /\ NoDup (map root_of walked)
    /\ (forall fuel, 1 < fuel ->
          main Sample.tree fuel "/r"
          = Some (script Sample.tree "/r" walked init_state)).
Proof.
  destruct (walk_terminates Sample.tree Sample.tree_rank "/r" tree_is_finite)
    as (walked & Hends & Hlinks & Honce & Hrun).
  exists walked. repeat split; auto. apply Honce, tree_well_listed.
Defined.

(* ================================================================== *)
(** ** Scenarios *)

(** One file with one [await] and one other identifier. *)
Example scenario_one_await :
  script Sample.tree "/r" [("/r", [], ["a.py"])] init_state =
  Done tt (mkState [ "Directory:  /r"; EmptyString;
                     ("await" ++ TAB ++ "/r/a.py: (1, 4)")%string;
                     EmptyString;
                     "# of errors:  0"; "# of `await`:  1"; "# of `async`:  0" ]
                   ["/r/a.py"] 0 0 1).
Proof. reflexivity. Qed.

(** One file with a byte that cannot be decoded. *)
Example scenario_undecodable :
  script Sample.tree "/r" [("/r", [], ["b.py"])] init_state =
  Done tt (mkState [ "Directory:  /r"; EmptyString;
                     error_line "/r/b.py" Sample.b_error;
                     EmptyString;
                     "# of errors:  1"; "# of `await`:  0"; "# of `async`:  0" ]
                   ["/r/b.py"] 1 0 0).
Proof. reflexivity. Qed.

(** One file with two [async] and one [await], beside a text file. *)
Example scenario_other_extension :
  script Sample.tree "/r" [("/r", [], ["c.py"; "d.txt"])] init_state =
  Done tt (mkState [ "Directory:  /r"; EmptyString;
                     ("async" ++ TAB ++ "/r/c.py: (1, 0)")%string;
                     ("await" ++ TAB ++ "/r/c.py: (2, 0)")%string;
                     ("async" ++ TAB ++ "/r/c.py: (2, 8)")%string;
                     EmptyString;
                     "# of errors:  0"; "# of `await`:  1"; "# of `async`:  2" ]
                   ["/r/c.py"] 0 2 1).
Proof. reflexivity. Qed.

(** An empty root directory. *)
Example scenario_empty_root :
  main Sample.empty 1 "/empty" =
  Some (Done tt (mkState [ "Directory:  /empty"; EmptyString; EmptyString;
                           "# of errors:  0"; "# of `await`:  0";
                           "# of `async`:  0" ] [] 0 0 0)).
Proof. reflexivity. Qed.

(** The token tables of the sample environments are what the tokenizer
    gives for the sample files, the exceptions of [b.py] and [u.py]
    included. *)
Example sample_tokens_are_the_tokenizers :
  map (Tokenize.tokenize Plain.lexicon 30)
      [Sample.a_py; Sample.b_py; Sample.c_py; Sample.e_py; Sample.u_py]
  = map (fun content => Some (Sample.sample_tokenize content))
        [Sample.a_py; Sample.b_py; Sample.c_py; Sample.e_py; Sample.u_py].
Proof. vm_compute. reflexivity. Qed.

(* ================================================================== *)
(** ** Further properties of the script *)

(** X2.  In every run, ended normally or not, each counter is the number
    of lines of its kind printed so far: [c_await] the lines that start
    with [await] and a tab, [c_async] those that start with [async] and
    a tab, [c_error] those that start with [ERROR] and a space.  So the
    counts of a summary are the counts of the report above it. *)
Theorem tally_counts_the_report
    (E : Env) (dir : string) (walked : list Os.triple) :
  let s := final_state (script E dir walked init_state) in
  c_await s = count_lines is_await_line (stdout s)
  /\ c_async s = count_lines is_async_line (stdout s)
  /\ c_error s = count_lines is_error_line (stdout s).
Proof.
  intros s. subst s. rewrite script_unfold.
  destruct (scan_all_effect E (scanned walked) (mkState (header dir) [] 0 0 0))
    as (pre & post & fs & _ & Hfin).
  destruct (count_lines_flat_map E pre) as (Hw & Ha & He).
  destruct (count_lines_header dir) as (Hhw & Hha & Hhe).
  destruct (for_each (scanned walked) (scan_path E) _) as [[] s|e s];
    cbn [final_state] in Hfin |- *; subst s; unfold advance;
    cbn [stdout c_await c_async c_error].
  - rewrite !count_lines_app, Hw, Ha, He, Hhw, Hha, Hhe.
    match goal with
    | |- context [summary ?st] =>
        destruct (count_lines_summary st) as (Hsw & Hsa & Hse)
    end.
    rewrite Hsw, Hsa, Hse. repeat split; lia.
  - rewrite !count_lines_app, Hw, Ha, He, Hhw, Hha, Hhe. repeat split.
Qed.

(** X3.  From any state the two loops only add: what was printed and
    opened before stays as it was, with new lines and names after it, and
    each counter goes up by exactly the number of lines of its kind that
    the loops print; no counter ever goes down. *)
Theorem loops_only_add (E : Env) (walked : list Os.triple) (s : state) :
  let s' := final_state (loops E walked s) in
  exists lines files,
    stdout s' = stdout s ++ lines
    /\ opened s' = opened s ++ files
    /\ c_await s' = c_await s + count_lines is_await_line lines
    /\ c_async s' = c_async s + count_lines is_async_line lines
    /\ c_error s' = c_error s + count_lines is_error_line lines.
Proof.
  intros s'. subst s'. unfold loops. rewrite for_each_walked.
  destruct (scan_all_effect E (scanned walked) s)
    as (pre & post & fs & _ & ->).
  destruct (count_lines_flat_map E pre) as (Hw & Ha & He).
  exists (flat_map (lines_of E) pre), fs.
  unfold advance; cbn [stdout opened c_await c_async c_error].
  rewrite Hw, Ha, He. repeat split.
Qed.

(** X4.  Runs compose: when no file of two enumerations aborts, the run
    over the first followed by the second counts the sum of what the two
    runs count, and opens the files of the first, then those of the
    second. *)
Theorem counts_add_up (E : Env) (dir : string) (w1 w2 : list Os.triple) :
  all_pass E (scanned (w1 ++ w2)) = true ->
  exists s1 s2 s,
    script E dir w1 init_state = Done tt s1
    /\ script E dir w2 init_state = Done tt s2
    /\ script E dir (w1 ++ w2) init_state = Done tt s
    /\ c_error s = c_error s1 + c_error s2
    /\ c_await s = c_await s1 + c_await s2
    /\ c_async s = c_async s1 + c_async s2
    /\ opened s = opened s1 ++ opened s2.
Proof.
  intros Hall. pose proof Hall as H12.
  rewrite scanned_app, all_pass_app in H12. apply andb_prop in H12 as [H1 H2].
  exists (end_state E dir (scanned w1)), (end_state E dir (scanned w2)),
         (end_state E dir (scanned (w1 ++ w2))).
  rewrite (script_done _ _ _ H1), (script_done _ _ _ H2), (script_done _ _ _ Hall).
  repeat split; unfold end_state, loops_state, advance;
    cbn [stdout opened c_await c_async c_error];
    rewrite scanned_app, ?total_app; reflexivity.
Qed.

(** Two enumerations of the sample tree, one after the other. *)
Lemma counts_add_up_witness :
  exists s1 s2 s,
    script Sample.tree "/r"
      [("/r", ["sub"; "loop"; "locked"], ["a.py"; "d.txt"; "b.py"; "c.py"])]
      init_state = Done tt s1
    /\ script Sample.tree "/r" [("/r/sub", [], ["e.py"; "x.PY"])] init_state
       = Done tt s2
    /\ script Sample.tree "/r"
         ([("/r", ["sub"; "loop"; "locked"], ["a.py"; "d.txt"; "b.py"; "c.py"])]
          ++ [("/r/sub", [], ["e.py"; "x.PY"])]) init_state = Done tt s
    /\ c_error s = c_error s1 + c_error s2
    /\ c_await s = c_await s1 + c_await s2
    /\ c_async s = c_async s1 + c_async s2
    /\ opened s = opened s1 ++ opened s2.
Proof.
  exact (counts_add_up Sample.tree "/r"
           [("/r", ["sub"; "loop"; "locked"], ["a.py"; "d.txt"; "b.py"; "c.py"])]
           [("/r/sub", [], ["e.py"; "x.PY"])] eq_refl).
Defined.

(** X6.  A run stops at the first scanned file that cannot be opened, or
    whose tokenization raises an exception that line 28 does not catch.
    [open] is called outside the [try], so its exception gets out
    whatever its class.  The run then ends with that exception: the
    files before are reported and counted in full, the offending file is
    opened but neither reported nor counted as an error, no later file
    is opened, and no summary is printed. *)
Theorem run_stops_at_first_offending_file
    (E : Env) (dir : string) (walked : list Os.triple)
    (pre post : list string) (f : string) (e : exn) :
  scanned walked = pre ++ f :: post ->
  all_pass E pre = true ->
  (open_rb E f = Raises e
   \/ exists c, open_rb E f = Returns c
                /\ raised (tokenize E c) = Some e /\ caught e = false) ->
  script E dir walked init_state =
  Uncaught e
    (mkState ([ ("Directory:  " ++ dir)%string; EmptyString ]
              ++ flat_map (lines_of E) pre)
             (pre ++ [f])
             (total (errors_of E) pre)
             (total (names_of "async" E) pre)
             (total (names_of "await" E) pre)).
Proof.
  intros Hs Hpre Hf.
  assert (Hres : file_result_of E f = Aborts e).
  { unfold file_result_of, py_list.
    destruct Hf as [-> | (c & -> & -> & ->)]; reflexivity. }
  assert (Hab : aborts E f = true) by (unfold aborts; now rewrite Hres).
  destruct (script_aborts E dir walked pre post f Hs Hpre Hab) as (e' & He' & ->).
  rewrite Hres in He'. injection He' as <-.
  unfold loops_state, advance, header; cbn [stdout opened c_await c_async c_error].
  now rewrite app_nil_r, !Nat.add_0_r.
Qed.

(** At a name of the sample tree that no file answers to: [open] raises
    [OSError] after [a.py] was reported, and [c.py] is never reached. *)
Lemma run_stops_at_first_offending_file_witness :
  script Sample.tree "/r" [("/r", [], ["a.py"; "gone.py"; "c.py"])] init_state =
  Uncaught Sample.no_such_file
    (mkState [ "Directory:  /r"; EmptyString;
               ("await" ++ TAB ++ "/r/a.py: (1, 4)")%string ]
             ["/r/a.py"; "/r/gone.py"] 0 0 1).
Proof.
  exact (run_stops_at_first_offending_file Sample.tree "/r"
           [("/r", [], ["a.py"; "gone.py"; "c.py"])]
           ["/r/a.py"] ["/r/c.py"] "/r/gone.py" Sample.no_such_file
           eq_refl eq_refl (or_introl eq_refl)).
Defined.

(** X5.  Whatever a run opens is an entry of a directory that could be
    listed, an entry that is no directory and whose name ends in [.py],
    joined to that directory; and the directory is the root of the scan
    or a directory that is no symbolic link.  So a directory is never
    opened, whatever its name, and what lies behind a linked directory
    is never read. *)
Theorem opened_files_are_listed_entries
    (E : Env) (fuel : nat) (dir : string) (r : result unit) (filename : string) :
  main E fuel dir = Some r ->
  In filename (opened (final_state r)) ->
  exists root entries d,
    scandir E root = Some entries
    /\ In d entries
    /\ entry_is_dir d = false
    /\ endswith (entry_name d) suffix = true
    /\ filename = join root (entry_name d)
    /\ (root = dir \/ islink E root = false).
Proof.
  unfold main. destruct (Os.walk E false fuel dir) as [walked|] eqn:Hw;
    [|discriminate].
  intros [= <-] Hin.
  destruct (opened_prefix E dir walked) as [k Hk]. rewrite Hk in Hin.
  apply In_firstn, In_scanned in Hin
    as (root & dirs & files & name & Ht & Hname & Hpy & ->).
  pose proof (walk_yields_listings E false fuel dir walked Hw) as Hl.
  pose proof (walk_skips_links E fuel dir walked Hw) as Hk'.
  rewrite Forall_forall in Hl, Hk'.
  destruct (Hl _ Ht) as (entries & Hscan & _ & ->).
  apply names_where_In in Hname as (d & Hd & Hnd & <-).
  exists root, entries, d. repeat split; auto.
  - now apply negb_true_iff.
  - apply (Hk' _ Ht).
Qed.

(** On the sample tree: [/r/sub/e.py] is opened, an entry of [/r/sub]. *)
Lemma opened_files_are_listed_entries_witness :
  exists root entries d,
    scandir Sample.tree root = Some entries
    /\ In d entries
    /\ entry_is_dir d = false
    /\ endswith (entry_name d) suffix = true
    /\ "/r/sub/e.py" = join root (entry_name d)
    /\ (root = "/r" \/ islink Sample.tree root = false).
Proof.
  refine (opened_files_are_listed_entries Sample.tree 2 "/r"
            (Done tt (mkState
               [ "Directory:  /r"; EmptyString;
                 ("await" ++ TAB ++ "/r/a.py: (1, 4)")%string;
                 error_line "/r/b.py" Sample.b_error;
                 ("async" ++ TAB ++ "/r/c.py: (1, 0)")%string;
                 ("await" ++ TAB ++ "/r/c.py: (2, 0)")%string;
                 ("async" ++ TAB ++ "/r/c.py: (2, 8)")%string;
                 EmptyString;
                 "# of errors:  1"; "# of `await`:  2"; "# of `async`:  2" ]
               ["/r/a.py"; "/r/b.py"; "/r/c.py"; "/r/sub/e.py"] 1 2 2))
            "/r/sub/e.py" _ _).
  - vm_compute. reflexivity.
  - simpl. auto.
Defined.

(** X9.  A run reads nothing but the files it scans: two environments
    that give the same bytes for every scanned file, and the same tokens
    for those bytes, give the same run on the same enumeration, however
    they differ elsewhere (other files, directories, links). *)
Theorem run_reads_only_scanned_files
    (E1 E2 : Env) (dir : string) (walked : list Os.triple) :
  (forall p, In p (scanned walked) -> open_rb E1 p = open_rb E2 p) ->
  (forall p c, In p (scanned walked) -> open_rb E1 p = Returns c ->
               tokenize E1 c = tokenize E2 c) ->
  script E1 dir walked init_state = script E2 dir walked init_state.
Proof.
  intros Ho Ht. rewrite !script_unfold.
  assert (Hloop : forall files s,
            (forall p, In p files -> In p (scanned walked)) ->
            for_each files (scan_path E1) s = for_each files (scan_path E2) s).
  { induction files as [|f files IH]; intros s Hsub; [reflexivity|].
    simpl. unfold bind. rewrite !scan_path_spec.
    assert (Hf : file_result_of E1 f = file_result_of E2 f).
    { unfold file_result_of. rewrite <- (Ho f (Hsub f (or_introl eq_refl))).
      destruct (open_rb E1 f) as [c|e] eqn:Hc; [|reflexivity].
      now rewrite (Ht f c (Hsub f (or_introl eq_refl)) Hc). }
    rewrite Hf. destruct (file_result_of E2 f); auto;
      apply IH; intros p Hp; apply Hsub; now right. }
  now rewrite (Hloop (scanned walked) _ (fun p Hp => Hp)).
Qed.

(** The sample tree and an environment that agrees with it on the four
    scanned files only. *)
Lemma run_reads_only_scanned_files_witness :
  script Sample.tree "/r"
    [("/r", ["sub"; "loop"; "locked"], ["a.py"; "d.txt"; "b.py"; "c.py"]);
     ("/r/sub", [], ["e.py"; "x.PY"])] init_state
  = script elsewhere "/r"
      [("/r", ["sub"; "loop"; "locked"], ["a.py"; "d.txt"; "b.py"; "c.py"]);
       ("/r/sub", [], ["e.py"; "x.PY"])] init_state.
Proof.
  apply run_reads_only_scanned_files.
  - intros p Hp. simpl in Hp.
    destruct Hp as [<-|[<-|[<-|[<-|[]]]]]; reflexivity.
  - intros p c Hp. simpl in Hp.
    destruct Hp as [<-|[<-|[<-|[<-|[]]]]]; intros [= <-]; reflexivity.
Defined.

(** X8.  No file is scanned twice in a run.  When every directory lists
    plain names (not empty, without separator), each once, the names a
    run passes to [open] are all different: every file is opened, and so
    reported and counted, at most once. *)
Theorem no_file_scanned_twice
    (E : Env) (fuel : nat) (dir : string) (r : result unit) :
  well_listed E ->
  main E fuel dir = Some r ->
  NoDup (opened (final_state r)).
Proof.
  intros Hwl. unfold main.
  destruct (Os.walk E false fuel dir) as [walked|] eqn:Hw; [|discriminate].
  intros [= <-]. destruct (opened_prefix E dir walked) as [k ->].
  apply NoDup_firstn. eapply scanned_NoDup; eauto.
Qed.

(** On the sample tree. *)
Lemma no_file_scanned_twice_witness :
  NoDup ["/r/a.py"; "/r/b.py"; "/r/c.py"; "/r/sub/e.py"].
Proof.
  refine (no_file_scanned_twice Sample.tree 2 "/r"
            (Done tt (mkState
               [ "Directory:  /r"; EmptyString;
                 ("await" ++ TAB ++ "/r/a.py: (1, 4)")%string;
                 error_line "/r/b.py" Sample.b_error;
                 ("async" ++ TAB ++ "/r/c.py: (1, 0)")%string;
                 ("await" ++ TAB ++ "/r/c.py: (2, 0)")%string;
                 ("async" ++ TAB ++ "/r/c.py: (2, 8)")%string;
                 EmptyString;
                 "# of errors:  1"; "# of `await`:  2"; "# of `async`:  2" ]
               ["/r/a.py"; "/r/b.py"; "/r/c.py"; "/r/sub/e.py"] 1 2 2))
            tree_well_listed _).
  vm_compute. reflexivity.
Defined.

(** X7.  The scan misses nothing.  In a run that ends normally, every
    entry that is no directory and whose name ends in [.py], in every
    listed directory reachable from the root through directories that
    are no symbolic links, has been opened. *)
Theorem every_reachable_file_is_scanned
    (E : Env) (fuel : nat) (dir : string) (s : state)
    (root : string) (entries : list DirEntry) (d : DirEntry) :
  main E fuel dir = Some (Done tt s) ->
  reachable E dir root ->
  scandir E root = Some entries ->
  In d entries ->
  entry_is_dir d = false ->
  endswith (entry_name d) suffix = true ->
  In (join root (entry_name d)) (opened s).
Proof.
  unfold main. destruct (Os.walk E false fuel dir) as [walked|] eqn:Hw;
    [|discriminate].
  intros [= Hrun] Hreach Hscan Hd Hnd Hpy.
  pose proof (script_done_inv _ _ _ _ Hrun) as Hall.
  rewrite (script_done _ _ _ Hall) in Hrun. injection Hrun as <-.
  unfold end_state, loops_state, advance; cbn [opened]. simpl.
  apply In_scanned.
  exists root, (Os.names_where entry_is_dir entries),
         (Os.names_where (fun e => negb (entry_is_dir e)) entries), (entry_name d).
  repeat split; auto.
  - eapply walk_complete; eauto.
  - apply names_where_In. exists d. repeat split; auto. now rewrite Hnd.
Qed.

(** On the sample tree: [e.py] of the sub-directory [/r/sub]. *)
Lemma every_reachable_file_is_scanned_witness :
  In "/r/sub/e.py" ["/r/a.py"; "/r/b.py"; "/r/c.py"; "/r/sub/e.py"].
Proof.
  refine (every_reachable_file_is_scanned Sample.tree 2 "/r"
            (mkState
               [ "Directory:  /r"; EmptyString;
                 ("await" ++ TAB ++ "/r/a.py: (1, 4)")%string;
                 error_line "/r/b.py" Sample.b_error;
                 ("async" ++ TAB ++ "/r/c.py: (1, 0)")%string;
                 ("await" ++ TAB ++ "/r/c.py: (2, 0)")%string;
                 ("async" ++ TAB ++ "/r/c.py: (2, 8)")%string;
                 EmptyString;
                 "# of errors:  1"; "# of `await`:  2"; "# of `async`:  2" ]
               ["/r/a.py"; "/r/b.py"; "/r/c.py"; "/r/sub/e.py"] 1 2 2)
            "/r/sub" [Sample.file_entry "e.py"; Sample.file_entry "x.PY"]
            (Sample.file_entry "e.py") _ tree_sub_reachable _ _ _ _).
  - vm_compute. reflexivity.
  - reflexivity.
  - simpl. auto.
  - reflexivity.
  - reflexivity.
Defined.

(** X11.  The counts of a run are sums over its files.  When no file
    aborts, the final [await] and [async] counts are the numbers of NAME
    tokens so spelled in the scanned files that tokenize to the end, a
    file whose tokenization fails adding none whatever it yielded
    before, and the error count is the number of those failing files. *)
Theorem counts_are_sums_over_files
    (E : Env) (dir : string) (walked : list Os.triple) :
  all_pass E (scanned walked) = true ->
  exists s,
    script E dir walked init_state = Done tt s
    /\ c_await s =
         list_sum (map (fun filename =>
                          match file_result_of E filename with
                          | Tokenized toks =>
                              List.length (filter (fun tok =>
                                 Nat.eqb (tok_type tok) NAME
                                 && String.eqb (tok_string tok) "await") toks)
                          | _ => 0
                          end) (scanned walked))
    /\ c_async s =
         list_sum (map (fun filename =>
                          match file_result_of E filename with
                          | Tokenized toks =>
                              List.length (filter (fun tok =>
                                 Nat.eqb (tok_type tok) NAME
                                 && String.eqb (tok_string tok) "async") toks)
                          | _ => 0
                          end) (scanned walked))
    /\ c_error s =
         List.length (filter (fun filename =>
                                match file_result_of E filename with
                                | Failed _ => true
                                | _ => false
                                end) (scanned walked)).
Proof.
  intros Hall. exists (end_state E dir (scanned walked)).
  split; [exact (script_done _ _ _ Hall)|].
  unfold end_state, loops_state, advance; cbn [c_await c_async c_error].
  split; [reflexivity|]. split; [reflexivity|].
  unfold total, errors_of, failed. simpl. clear Hall.
  induction (scanned walked) as [|f files IH]; [reflexivity|].
  simpl. destruct (file_result_of E f); simpl; rewrite IH; reflexivity.
Qed.

(** On the sample tree: two [await], two [async], one failing file. *)
Lemma counts_are_sums_over_files_witness :
  exists s,
    script Sample.tree "/r"
      [("/r", ["sub"; "loop"; "locked"], ["a.py"; "d.txt"; "b.py"; "c.py"])]
      init_state = Done tt s
    /\ c_await s = 2 /\ c_async s = 2 /\ c_error s = 1.
Proof.
  exact (counts_are_sums_over_files Sample.tree "/r"
           [("/r", ["sub"; "loop"; "locked"], ["a.py"; "d.txt"; "b.py"; "c.py"])]
           eq_refl).
Defined.

(** X12.  A scanned file that can be opened gives either match lines only
    or one failure record only.  If its tokenization ends normally, the
    matches of its tokens are printed and the error counter stays; if it
    ends with an exception caught on line 28, exactly one [ERROR] line is
    printed, the error counter goes up by one, and neither a match line
    nor a match count comes from the tokens yielded before the exception.
    A match line is never an [ERROR] line. *)
Theorem matches_or_one_failure_record
    (E : Env) (root name : string) (f : list Byte.byte) (s : state) :
  endswith name suffix = true ->
  open_rb E (join root name) = Returns f ->
  let filename := join root name in
  let toks := yielded (tokenize E f) in
  match raised (tokenize E f) with
  | None =>
      scan_file E root name s =
      Done tt (mkState (stdout s ++ map (match_line filename) (keyword_tokens toks))
                       (opened s ++ [filename])
                       (c_error s)
                       (c_async s + List.length (name_tokens "async" toks))
                       (c_await s + List.length (name_tokens "await" toks)))
  | Some e =>
      caught e = true ->
      scan_file E root name s =
      Done tt (mkState (stdout s ++ [error_line filename e])
                       (opened s ++ [filename])
                       (c_error s + 1) (c_async s) (c_await s))
  end
  /\ (forall tok g e, In tok (keyword_tokens toks) ->
        match_line filename tok <> error_line g e).
Proof.
  intros Hname Hopen filename toks. subst filename toks. split.
  - rewrite (scan_file_scanned _ _ _ _ Hname), scan_path_spec.
    unfold file_result_of. rewrite Hopen. unfold py_list.
    destruct (raised (tokenize E f)) as [e|].
    + intros ->. unfold advance. now rewrite !Nat.add_0_r.
    + unfold advance. now rewrite Nat.add_0_r.
  - intros tok g e. apply match_line_not_error_line.
Qed.

(** At [b.py] of the sample tree, whose tokenizer yields an [await] and
    an [async] NAME token before it raises [UnicodeDecodeError]: one
    [ERROR] line, one error counted, no match. *)
Lemma matches_or_one_failure_record_witness :
  scan_file Sample.tree "/r" "b.py" init_state =
  Done tt (mkState [ error_line "/r/b.py" Sample.b_error ] ["/r/b.py"] 1 0 0)
  /\ List.length (keyword_tokens (yielded (tokenize Sample.tree Sample.b_py))) = 2.
Proof.
  split; [|reflexivity].
  exact (proj1 (matches_or_one_failure_record
                  Sample.tree "/r" "b.py" Sample.b_py init_state
                  eq_refl eq_refl) eq_refl).
Defined.

(** X13.  The files a run opens are, in order, enumerated files whose name
    ends in [.py], and no others: always a prefix of that list, and the
    whole list when no file aborts the run.  A name ends in [.py] exactly
    when it is some string followed by the four characters [.py]; the
    test distinguishes case. *)
Theorem scanned_iff_name_ends_with_suffix
    (E : Env) (dir : string) (walked : list Os.triple) :
  let wanted :=
    map (fun '(root, name) => join root name)
        (filter (fun '(_, name) => endswith name suffix) (enumerated walked)) in
  (exists k, opened (final_state (script E dir walked init_state))
             = firstn k wanted)
  /\ (all_pass E (scanned walked) = true ->
      opened (final_state (script E dir walked init_state)) = wanted)
  /\ (forall name, endswith name suffix = true <->
                   exists p, name = (p ++ ".py")%string)
  /\ endswith "d.txt" suffix = false
  /\ endswith "x.PY" suffix = false
  /\ endswith "x.pyc" suffix = false.
Proof.
  intros wanted. subst wanted. rewrite <- scanned_enumerated.
  split; [apply opened_prefix|].
  split; [|split; [intros name; apply endswith_iff | repeat split]].
  intros Hall. rewrite (script_done _ _ _ Hall). reflexivity.
Qed.

(** On the sample tree: [d.txt] and [x.PY] are enumerated and never
    opened. *)
Lemma scanned_iff_name_ends_with_suffix_witness :
  opened (final_state
            (script Sample.tree "/r"
               [("/r", ["sub"; "loop"; "locked"], ["a.py"; "d.txt"; "b.py"; "c.py"]);
                ("/r/sub", [], ["e.py"; "x.PY"])] init_state))
  = ["/r/a.py"; "/r/b.py"; "/r/c.py"; "/r/sub/e.py"].
Proof.
  exact (proj1 (proj2 (scanned_iff_name_ends_with_suffix Sample.tree "/r"
               [("/r", ["sub"; "loop"; "locked"], ["a.py"; "d.txt"; "b.py"; "c.py"]);
                ("/r/sub", [], ["e.py"; "x.PY"])])) eq_refl).
Defined.

(** X14.  A run that no file aborts ([all_pass]) ends normally and prints,
    in this order: the line [Directory:  <dir>] and an empty line; for
    each scanned file in processing order its lines, which are either
    match lines [<await or async><TAB><file>: <position>] or one line
    [ERROR <file> <message>]; an empty line and the three labelled counts
    of errors, [await] and [async].  With nothing to scan the body is
    empty and the summary is still printed. *)
Theorem output_of_a_run (E : Env) (dir : string) (walked : list Os.triple) :
  all_pass E (scanned walked) = true ->
  (exists s,
     script E dir walked init_state = Done tt s
     /\ stdout s =
          [ ("Directory:  " ++ dir)%string; EmptyString ]
          ++ flat_map (lines_of E) (scanned walked)
          ++ [ EmptyString;
               ("# of errors:  " ++ str_int (c_error s))%string;
               ("# of `await`:  " ++ str_int (c_await s))%string;
               ("# of `async`:  " ++ str_int (c_async s))%string ])
  /\ (forall filename,
        (exists toks,
           lines_of E filename =
             map (fun tok => (tok_string tok ++ TAB ++ filename ++ ": "
                              ++ str_pair (tok_start tok))%string) toks
           /\ Forall (fun tok => tok_string tok = "await"
                                 \/ tok_string tok = "async") toks)
        \/ (exists e, lines_of E filename
                      = [("ERROR " ++ filename ++ " " ++ exn_str e)%string]))
  /\ script E dir [] init_state =
       Done tt (mkState [ ("Directory:  " ++ dir)%string; EmptyString;
                          EmptyString;
                          "# of errors:  0"; "# of `await`:  0";
                          "# of `async`:  0" ] [] 0 0 0).
Proof.
  intros Hall. split; [|split; [apply lines_of_form | reflexivity]].
  exists (end_state E dir (scanned walked)).
  split; [now apply script_done|].
  unfold end_state, loops_state, advance, header, summary; simpl.
  rewrite <- ?app_assoc. reflexivity.
Qed.

(** On the sample tree. *)
Lemma output_of_a_run_witness :
  exists s,
    script Sample.tree "/r"
      [("/r", ["sub"; "loop"; "locked"], ["a.py"; "d.txt"; "b.py"; "c.py"]);
       ("/r/sub", [], ["e.py"; "x.PY"])] init_state = Done tt s
    /\ stdout s =
       [ "Directory:  /r"; EmptyString;
         ("await" ++ TAB ++ "/r/a.py: (1, 4)")%string;
         error_line "/r/b.py" Sample.b_error;
         ("async" ++ TAB ++ "/r/c.py: (1, 0)")%string;
         ("await" ++ TAB ++ "/r/c.py: (2, 0)")%string;
         ("async" ++ TAB ++ "/r/c.py: (2, 8)")%string;
         EmptyString;
         "# of errors:  1"; "# of `await`:  2"; "# of `async`:  2" ].
Proof.
  destruct (proj1 (output_of_a_run Sample.tree "/r"
              [("/r", ["sub"; "loop"; "locked"], ["a.py"; "d.txt"; "b.py"; "c.py"]);
               ("/r/sub", [], ["e.py"; "x.PY"])] eq_refl))
    as (s & Hrun & Hout).
  exists s. split; [exact Hrun|].
  rewrite Hout. apply script_done_inv in Hrun as Hall.
  rewrite (script_done _ _ _ Hall) in Hrun.
  injection Hrun as <-. reflexivity.
Defined.

(** X15.  Scan a tree twice, the tree unchanged but its directories
    perhaps listed in another order the second time.  If the first run
    ends normally, so does the second, with the same three counts and the
    same lines printed, up to their order. *)
Theorem rescan_gives_same_counts_and_lines
    (E1 E2 : Env) (fuel : nat) (dir : string) (s1 : state) :
  same_tree E1 E2 ->
  main E1 fuel dir = Some (Done tt s1) ->
  exists s2,
    main E2 fuel dir = Some (Done tt s2)
    /\ c_error s1 = c_error s2
    /\ c_await s1 = c_await s2
    /\ c_async s1 = c_async s2
    /\ Permutation (stdout s1) (stdout s2).
Proof.
  intros Hsame Hrun.
  pose proof Hsame as (_ & _ & Ho & Ht).
  unfold main in *.
  destruct (Os.walk E1 false fuel dir) as [w1|] eqn:Hw1; [|discriminate].
  injection Hrun as Hrun.
  destruct (walk_same_tree E1 E2 fuel Hsame dir w1 Hw1) as (w2 & -> & P).
  pose proof (script_done_inv _ _ _ _ Hrun) as Hall1.
  rewrite (script_done _ _ _ Hall1) in Hrun. injection Hrun as <-.
  pose proof (all_pass_Permutation _ _ _ P Hall1) as Hall2.
  exists (end_state E1 dir (scanned w2)).
  split.
  - rewrite <- (script_ext E1 E2 dir w2 Ho Ht). now rewrite (script_done _ _ _ Hall2).
  - apply end_state_Permutation, P.
Qed.

(** On the sample tree and the same tree with every directory listed
    backwards. *)
Lemma rescan_gives_same_counts_and_lines_witness :
  exists s2,
    main Sample.tree_reversed 2 "/r" = Some (Done tt s2)
    /\ 1 = c_error s2 /\ 2 = c_await s2 /\ 2 = c_async s2
    /\ Permutation
         [ "Directory:  /r"; EmptyString;
           ("await" ++ TAB ++ "/r/a.py: (1, 4)")%string;
           error_line "/r/b.py" Sample.b_error;
           ("async" ++ TAB ++ "/r/c.py: (1, 0)")%string;
           ("await" ++ TAB ++ "/r/c.py: (2, 0)")%string;
           ("async" ++ TAB ++ "/r/c.py: (2, 8)")%string;
           EmptyString;
           "# of errors:  1"; "# of `await`:  2"; "# of `async`:  2" ]
         (stdout s2).
Proof.
  refine (rescan_gives_same_counts_and_lines
                   Sample.tree Sample.tree_reversed 2 "/r"
                   (mkState
                      [ "Directory:  /r"; EmptyString;
                        ("await" ++ TAB ++ "/r/a.py: (1, 4)")%string;
                        error_line "/r/b.py" Sample.b_error;
                        ("async" ++ TAB ++ "/r/c.py: (1, 0)")%string;
                        ("await" ++ TAB ++ "/r/c.py: (2, 0)")%string;
                        ("async" ++ TAB ++ "/r/c.py: (2, 8)")%string;
                        EmptyString;
                        "# of errors:  1"; "# of `await`:  2";
                        "# of `async`:  2" ]
                      ["/r/a.py"; "/r/b.py"; "/r/c.py"; "/r/sub/e.py"] 1 2 2)
                   same_tree_reversed _).
  vm_compute. reflexivity.
Defined.
